(** * A read-only inspector for the OsFinalProject filesystem image

    Shallow embedding of [tools/parse_data_fs.py] and the properties of its
    decoding, addressing, path-resolution, file-reassembly and bitmap
    routines.

    Conventions of the embedding:
    - Python [int] is [Z]; [bytes] is [list byte]; [str] is a list of
      Unicode code points.
    - The open image file [f] is a record holding the image bytes, the
      current position and the log of [read] requests already served; a
      seek to a negative offset or to 2^63 and beyond is refused, as is a
      read length below -1.
    - A Python function that takes [f] is a function [file -> result * file];
      a [raise] is the [Raise] result. *)

From Stdlib Require Import String Ascii.
From Stdlib Require Import Strings.Byte.
From Stdlib Require Import ZArith List Bool Lia.
Import ListNotations.
Local Open Scope Z_scope.

(** ** Bytes, integers and strings *)

Definition bytes := list byte.

Definition byte_val (b : byte) : Z := Z.of_N (Byte.to_N b).

(** [b[i:i+n]] for a non-negative start: Python slices clamp at the end. *)
Definition slice {A : Type} (l : list A) (i n : nat) : list A :=
  firstn n (skipn i l).

(** Little-endian unsigned integer held by a byte string ([struct] code [I]
    when the string has four bytes). *)
Fixpoint le_uint (bs : bytes) : Z :=
  match bs with
  | [] => 0
  | b :: rest => byte_val b + 256 * le_uint rest
  end.

(** [struct.unpack("<nI", raw)]: [n] consecutive 4-byte fields. *)
Fixpoint unpack_uint32s (n : nat) (raw : bytes) : list Z :=
  match n with
  | O => []
  | S k => le_uint (firstn 4 raw) :: unpack_uint32s k (skipn 4 raw)
  end.

Definition codepoint := N.
Definition str := list codepoint.

(** The path separator ["/"]. *)
Definition SEP : codepoint := 47%N.

(** A literal of ASCII characters as a Python [str]. *)
Definition lit (s : string) : str := map N_of_ascii (list_ascii_of_string s).

Definition str_eqb (a b : str) : bool :=
  if list_eq_dec N.eq_dec a b then true else false.

(** ** Constants and records *)

Definition FS_MAGIC : Z := 0x20251205.
Definition INODE_SIZE : Z := 44.
Definition DIRENTRY_SIZE : Z := 64.

Record SuperBlock := mkSuperBlock {
  magic : Z;
  blockSize : Z;
  totalBlocks : Z;
  inodeTableStart : Z;
  inodeTableBlocks : Z;
  inodeCount : Z;
  freeBitmapStart : Z;
  freeBitmapBlocks : Z;
  dataBlockStart : Z;
  dataBlockCount : Z;
  rootInodeId : Z
}.

Record Inode := mkInode {
  id : Z;
  is_dir : bool;
  size : Z;
  direct : list Z
}.

(** ** Failures

    Every failure of the tool is a [ValueError] told apart by its message
    (or an exception of the runtime); one constructor per [raise] site. *)

Inductive error :=
| UnexpectedEOF          (* read_exact: "unexpected EOF" (ShortRead) *)
| BadMagic               (* read_superblock: "bad magic" *)
| InvalidGeometry        (* read_superblock: "invalid superblock" *)
| BlockOutOfRange        (* read_block: "blockId out of range" (OutOfRange) *)
| InvalidLayout          (* inode_offset: "invalid layout" *)
| InodeOutOfRange        (* inode_offset: "inodeId out of range" (OutOfRange) *)
| GeometryMismatch       (* inode_offset: "inode table block index ..." *)
| InvalidPath            (* resolve_path: "invalid path" *)
| NotADirectoryResolving (* resolve_path: "not a directory while resolving" *)
| EmptyDirectory         (* resolve_path: "directory inode has no data block" *)
| PathNotFound           (* resolve_path: "path component not found" *)
| NotADirectory          (* list_dir: "not a directory" *)
| IsADirectory           (* read_file_content: "path is a directory" *)
| TruncatedFile          (* read_file_content: "file is truncated ..." *)
| IndexError             (* runtime: index out of range *)
| SeekError              (* runtime: seek position negative or >= 2^63 *)
| ReadLengthError        (* runtime: read length below -1 *)
| StructError.           (* runtime: struct.unpack on a wrong length *)

Inductive result (A : Type) :=
| Ok (a : A)
| Raise (e : error).
Arguments Ok {A} a.
Arguments Raise {A} e.

(** ** The open image file *)

Record file := mkFile {
  image : bytes;            (* the bytes of the image, never written *)
  pos : Z;                  (* current position of the handle *)
  reads : list (Z * Z)      (* (position, requested length) of each read *)
}.

(** [open(path, "rb")]. *)
Definition open_image (img : bytes) : file :=
  {| image := img; pos := 0; reads := [] |}.

Definition io (A : Type) : Type := file -> result A * file.

Definition ret {A : Type} (a : A) : io A := fun f => (Ok a, f).

Definition raise {A : Type} (e : error) : io A := fun f => (Raise e, f).

Definition bind {A B : Type} (m : io A) (k : A -> io B) : io B :=
  fun f =>
    match m f with
    | (Ok a, f') => k a f'
    | (Raise e, f') => (Raise e, f')
    end.

Notation "x <- m ;; k" := (bind m (fun x => k))
  (at level 61, m at next level, right associativity).
Notation "' pat <- m ;; k" :=
  (bind m (fun x => match x with pat => k end))
  (at level 61, pat pattern, m at next level, right associativity).
Notation "m ;;; k" := (bind m (fun _ => k))
  (at level 61, right associativity).

(** File offsets of the runtime are signed 64-bit integers. *)
Definition MAX_OFFSET : Z := 2 ^ 63.

(** [f.seek(off)]: the runtime refuses a negative position and a position
    that does not fit a signed 64-bit offset; the handle is then left as it
    was. *)
Definition f_seek (off : Z) : io unit := fun f =>
  if (off <? 0) || (MAX_OFFSET <=? off) then (Raise SeekError, f)
  else (Ok tt, {| image := image f; pos := off; reads := reads f |}).

(** [f.read(n)]: at most [n] bytes from the current position, fewer only at
    the end of the image; [-1] reads to the end, and the runtime refuses a
    length below [-1] without reading. *)
Definition f_read (n : Z) : io bytes := fun f =>
  if n <? -1 then (Raise ReadLengthError, f)
  else
    let rest := skipn (Z.to_nat (pos f)) (image f) in
    let data := if n <? 0 then rest else firstn (Z.to_nat n) rest in
    (Ok data,
     {| image := image f;
        pos := pos f + Z.of_nat (length data);
        reads := reads f ++ [(pos f, n)] |}).

Definition read_exact (n : Z) : io bytes :=
  data <- f_read n ;;
  if negb (Z.of_nat (length data) =? n) then raise UnexpectedEOF
  else ret data.

(** ** SuperBlock reader *)

Definition read_superblock : io SuperBlock :=
  raw <- read_exact 44 ;;
  match unpack_uint32s 11 raw with
  | [v0; v1; v2; v3; v4; v5; v6; v7; v8; v9; v10] =>
      let sb := mkSuperBlock v0 v1 v2 v3 v4 v5 v6 v7 v8 v9 v10 in
      if negb (magic sb =? FS_MAGIC) then raise BadMagic
      else if (blockSize sb <=? 0) || (totalBlocks sb <=? 0)
      then raise InvalidGeometry
      else ret sb
  | _ => raise StructError
  end.

(** ** Block accessor *)

Definition file_offset_of_block (sb : SuperBlock) (block_id : Z) : Z :=
  block_id * blockSize sb.

Definition read_block (sb : SuperBlock) (block_id : Z) : io bytes :=
  if (block_id <? 0) || (block_id >=? totalBlocks sb)
  then raise BlockOutOfRange
  else f_seek (file_offset_of_block sb block_id) ;;;
       read_exact (blockSize sb).

(** ** Inode table *)

Definition inode_offset (sb : SuperBlock) (inode_id : Z) : result Z :=
  let inodes_per_block := blockSize sb / INODE_SIZE in
  if inodes_per_block <=? 0 then Raise InvalidLayout
  else if (inode_id <? 0) || (inode_id >=? inodeCount sb)
  then Raise InodeOutOfRange
  else
    let block_index := inode_id / inodes_per_block in
    let index_in_block := inode_id mod inodes_per_block in
    if block_index >=? inodeTableBlocks sb then Raise GeometryMismatch
    else
      let block_id := inodeTableStart sb + block_index in
      Ok (file_offset_of_block sb block_id + index_in_block * INODE_SIZE).

(** [INODE_STRUCT.unpack(raw)] with layout ["<I?3xI8I"]: id, one flag byte
    (any non-zero byte is true), three bytes of padding, size, eight block
    identifiers. *)
Definition unpack_inode (raw : bytes) : Inode :=
  {| id := le_uint (slice raw 0 4);
     is_dir := negb (le_uint (slice raw 4 1) =? 0);
     size := le_uint (slice raw 8 4);
     direct := unpack_uint32s 8 (skipn 12 raw) |}.

Definition read_inode (sb : SuperBlock) (inode_id : Z) : io Inode :=
  match inode_offset sb inode_id with
  | Raise e => raise e
  | Ok off =>
      f_seek off ;;;
      raw <- read_exact INODE_SIZE ;;
      ret (unpack_inode raw)
  end.

(** ** Directory resolver *)

(** The loop of [split_path]: [comps] are the components emitted so far,
    [cur] the characters of the component being accumulated. *)
Fixpoint split_path_loop (path : str) (comps : list str) (cur : str)
  : list str * str :=
  match path with
  | [] => (comps, cur)
  | ch :: rest =>
      if N.eqb ch SEP then
        match cur with
        | [] => split_path_loop rest comps cur
        | _ :: _ => split_path_loop rest (comps ++ [cur]) []
        end
      else split_path_loop rest comps (cur ++ [ch])
  end.

Definition split_path (path : str) : list str :=
  let '(comps, cur) := split_path_loop path [] [] in
  match cur with
  | [] => comps
  | _ :: _ => comps ++ [cur]
  end.

(** [range(0, n, step)] for a positive [step]. *)
Definition range_step (n step : nat) : list nat :=
  map (fun k => (k * step)%nat) (seq 0 ((n + step - 1) / step)%nat).

(** [range(n)]. *)
Definition range (n : Z) : list Z := map Z.of_nat (seq 0 (Z.to_nat n)).

(** [name_raw.split(b"\x00", 1)[0]]: the bytes before the first NUL. *)
Fixpoint until_nul (raw : bytes) : bytes :=
  match raw with
  | [] => []
  | b :: rest => if Byte.eqb b x00 then [] else b :: until_nul rest
  end.

(** [DIRENTRY_STRUCT.unpack(chunk)] with layout ["<I60s"]. *)
Definition unpack_direntry (chunk : bytes) : Z * bytes :=
  (le_uint (slice chunk 0 4), slice chunk 4 60).

(** The scan of the decoded entries of a directory for a component: the
    inner [for ... break] of [resolve_path]. *)
Fixpoint find_child (name : str) (entries : list (Z * str)) : option Z :=
  match entries with
  | [] => None
  | (child_id, child_name) :: rest =>
      if str_eqb child_name name then Some child_id
      else find_child name rest
  end.

(** [ino.direct[0]]. *)
Definition first_direct (ino : Inode) : io Z :=
  match direct ino with
  | d :: _ => ret d
  | [] => raise IndexError
  end.

Section Directory.

(** [bytes.decode("utf-8", errors="replace")] of the Python runtime. *)
Variable decode : bytes -> str.

(** The loop of [parse_dir_block] over the offsets [range(0, len, 64)]. *)
Fixpoint parse_dir_loop (block : bytes) (offsets : list nat)
  : list (Z * str) :=
  match offsets with
  | [] => []
  | i :: rest =>
      let chunk := slice block i (Z.to_nat DIRENTRY_SIZE) in
      if negb (Z.of_nat (length chunk) =? DIRENTRY_SIZE) then []
      else
        let '(inode_id, name_raw) := unpack_direntry chunk in
        if inode_id =? 0 then parse_dir_loop block rest
        else (inode_id, decode (until_nul name_raw))
               :: parse_dir_loop block rest
  end.

Definition parse_dir_block (block : bytes) : list (Z * str) :=
  parse_dir_loop block
    (range_step (length block) (Z.to_nat DIRENTRY_SIZE)).

(** The walk of [resolve_path] over the components, from [current]. *)
Fixpoint resolve_loop (sb : SuperBlock) (comps : list str) (current : Z)
  : io Z :=
  match comps with
  | [] => ret current
  | name :: rest =>
      ino <- read_inode sb current ;;
      if negb (is_dir ino) then raise NotADirectoryResolving
      else
        d0 <- first_direct ino ;;
        if d0 =? 0 then raise EmptyDirectory
        else
          blk <- read_block sb d0 ;;
          match find_child name (parse_dir_block blk) with
          | None => raise PathNotFound
          | Some nxt => resolve_loop sb rest nxt
          end
  end.

Definition resolve_path (sb : SuperBlock) (path : str) : io Z :=
  if str_eqb path [] || str_eqb path [SEP] then ret (rootInodeId sb)
  else
    match split_path path with
    | [] => raise InvalidPath
    | comps => resolve_loop sb comps (rootInodeId sb)
    end.

(** The loop of [list_dir] over the decoded entries. *)
Fixpoint list_dir_loop (sb : SuperBlock) (entries : list (Z * str))
    (out : list str) : io (list str) :=
  match entries with
  | [] => ret out
  | (child_id, child_name) :: rest =>
      child <- read_inode sb child_id ;;
      list_dir_loop sb rest
        (out ++ [child_name ++ (if is_dir child then [SEP] else [])])
  end.

Definition list_dir (sb : SuperBlock) (path : str) : io (list str) :=
  inode_id <- resolve_path sb path ;;
  ino <- read_inode sb inode_id ;;
  if negb (is_dir ino) then raise NotADirectory
  else
    d0 <- first_direct ino ;;
    if d0 =? 0 then ret []
    else
      blk <- read_block sb d0 ;;
      list_dir_loop sb (parse_dir_block blk) [].

(** The loop of [read_file_content] over [ino.direct]; it yields the
    final [remaining] and [chunks]. *)
Fixpoint read_file_loop (sb : SuperBlock) (blocks : list Z)
    (remaining : Z) (chunks : list bytes) : io (Z * list bytes) :=
  match blocks with
  | [] => ret (remaining, chunks)
  | block_id :: rest =>
      if remaining <=? 0 then ret (remaining, chunks)
      else if block_id =? 0 then ret (remaining, chunks)
      else
        blk <- read_block sb block_id ;;
        let take := Z.min remaining (blockSize sb) in
        read_file_loop sb rest (remaining - take)
          (chunks ++ [firstn (Z.to_nat take) blk])
  end.

Definition read_file_content (sb : SuperBlock) (path : str) : io bytes :=
  inode_id <- resolve_path sb path ;;
  ino <- read_inode sb inode_id ;;
  if is_dir ino then raise IsADirectory
  else
    '(remaining, chunks) <- read_file_loop sb (direct ino) (size ino) [] ;;
    if negb (remaining =? 0) then raise TruncatedFile
    else ret (concat chunks).

End Directory.

(** ** Bitmap analyzer *)

(** [(byte >> (bit_index % 8)) & 1]. *)
Definition bit_set (b : byte) (bit_index : Z) : bool :=
  negb (Z.land (Z.shiftr (byte_val b) (bit_index mod 8)) 1 =? 0).

(** The inner loop of [bitmap_stats], [n] iterations over one bitmap block:
    it yields the updated [used] and [bit_index]; indexing [bmp] past its
    end raises. *)
Fixpoint bitmap_bits_loop (bmp : bytes) (n : nat) (used bit_index : Z)
  : result (Z * Z) :=
  match n with
  | O => Ok (used, bit_index)
  | S k =>
      match nth_error bmp (Z.to_nat (bit_index / 8)) with
      | None => Raise IndexError
      | Some b =>
          bitmap_bits_loop bmp k
            (if bit_set b bit_index then used + 1 else used)
            (bit_index + 1)
      end
  end.

(** The outer loop of [bitmap_stats] over the bitmap blocks. *)
Fixpoint bitmap_blocks_loop (sb : SuperBlock) (bs : list Z)
    (used remaining bit_index : Z) : io Z :=
  match bs with
  | [] => ret used
  | b :: rest =>
      if remaining <=? 0 then ret used
      else
        bmp <- read_block sb (freeBitmapStart sb + b) ;;
        let bits_in_this_block :=
          Z.min (Z.of_nat (length bmp) * 8) remaining in
        match bitmap_bits_loop bmp (Z.to_nat bits_in_this_block)
                used bit_index with
        | Raise e => raise e
        | Ok (used', bit_index') =>
            bitmap_blocks_loop sb rest used'
              (remaining - bits_in_this_block) bit_index'
        end
  end.

Definition bitmap_stats (sb : SuperBlock) : io (Z * Z * Z) :=
  used <- bitmap_blocks_loop sb (range (freeBitmapBlocks sb))
            0 (dataBlockCount sb) 0 ;;
  let total := dataBlockCount sb in
  ret (total, used, total - used).

(** ** Concrete images

    Two small images in the on-disk format, built field by field; the
    examples, witnesses and counterexamples below run the routines on
    them. *)

Module Fixture.

Definition byte_of (n : N) : byte :=
  match Byte.of_N n with
  | Some b => b
  | None => x00
  end.

(** [v] as [k] little-endian bytes. *)
Fixpoint le_bytes (k : nat) (v : Z) : bytes :=
  match k with
  | O => []
  | S k' => byte_of (Z.to_N (v mod 256)) :: le_bytes k' (v / 256)
  end.

Definition u32 (v : Z) : bytes := le_bytes 4 v.

Definition pad (n : nat) (l : bytes) : bytes :=
  l ++ repeat x00 (n - length l).

Definition ascii_bytes (s : string) : bytes :=
  map byte_of_ascii (list_ascii_of_string s).

(** Decoder for the names of the fixtures, which are plain ASCII: on such
    bytes UTF-8 decoding is the identity on code points. *)
Definition decode_ascii (bs : bytes) : str := map Byte.to_N bs.

Definition superblock_bytes (sb : SuperBlock) : bytes :=
  u32 (magic sb) ++ u32 (blockSize sb) ++ u32 (totalBlocks sb)
  ++ u32 (inodeTableStart sb) ++ u32 (inodeTableBlocks sb)
  ++ u32 (inodeCount sb) ++ u32 (freeBitmapStart sb)
  ++ u32 (freeBitmapBlocks sb) ++ u32 (dataBlockStart sb)
  ++ u32 (dataBlockCount sb) ++ u32 (rootInodeId sb).

Definition inode_bytes (ino : Inode) : bytes :=
  u32 (id ino) ++ [if is_dir ino then x01 else x00; x00; x00; x00]
  ++ u32 (size ino) ++ flat_map u32 (direct ino).

Definition direntry_bytes (inode_id : Z) (name : string) : bytes :=
  u32 inode_id ++ pad 60 (ascii_bytes name).

Definition file_inode (i sz : Z) (blocks : list Z) : Inode :=
  mkInode i false sz (blocks ++ repeat 0 (8 - length blocks)).

Definition dir_inode (i : Z) (blocks : list Z) : Inode :=
  mkInode i true 0 (blocks ++ repeat 0 (8 - length blocks)).

(** *** A 12-block image with 512-byte blocks

    Block 0 holds the superblock, block 1 the inode table (11 inodes),
    block 2 the bitmap, blocks 3..11 the data region. *)

Definition sb : SuperBlock :=
  {| magic := FS_MAGIC; blockSize := 512; totalBlocks := 12;
     inodeTableStart := 1; inodeTableBlocks := 1; inodeCount := 11;
     freeBitmapStart := 2; freeBitmapBlocks := 1;
     dataBlockStart := 3; dataBlockCount := 9; rootInodeId := 1 |}.

Definition inode_table : bytes :=
  pad 512
    (inode_bytes (file_inode 0 0 [])
     ++ inode_bytes (dir_inode 1 [3])          (* the root directory *)
     ++ inode_bytes (file_inode 2 5 [4])       (* "hello" *)
     ++ inode_bytes (file_inode 3 1100 [5; 99]) (* second block out of range *)
     ++ inode_bytes (dir_inode 4 [6])          (* directory "sub" *)
     ++ inode_bytes (file_inode 5 600 [5])     (* size beyond its one block *)
     ++ inode_bytes (file_inode 6 515 [7; 8])  (* two blocks *)
     ++ inode_bytes (dir_inode 7 [])).         (* directory without block *)

Definition root_dir_block : bytes :=
  direntry_bytes 0 "a.txt"     (* unused slot *)
  ++ direntry_bytes 2 "a.txt"
  ++ direntry_bytes 3 "a.txt"  (* same name again *)
  ++ direntry_bytes 4 "sub"
  ++ direntry_bytes 5 "big"
  ++ direntry_bytes 6 "two"
  ++ direntry_bytes 7 "void"
  ++ direntry_bytes 3 "bad".

Definition sub_dir_block : bytes :=
  pad 512 (direntry_bytes 99 "lost"   (* no such inode *)
           ++ direntry_bytes 2 "link").

Definition bitmap_block : bytes :=
  pad 512 [byte_of 63; byte_of 254].  (* bits 0..5 and 9..15 set *)

Definition img : bytes :=
  pad 512 (superblock_bytes sb)
  ++ inode_table
  ++ bitmap_block
  ++ root_dir_block                          (* block 3 *)
  ++ pad 512 (ascii_bytes "hello")           (* block 4 *)
  ++ repeat (byte_of 120) 512                (* block 5 *)
  ++ sub_dir_block                           (* block 6 *)
  ++ repeat (byte_of 65) 512                 (* block 7 *)
  ++ pad 512 (ascii_bytes "xyz")             (* block 8 *)
  ++ repeat x00 (3 * 512).                   (* blocks 9..11 *)

Definition f : file := open_image img.

(** *** A 517-block image with 64-byte blocks

    Its data region has 513 blocks, one more than the 512 bits of a
    bitmap block, so its bitmap takes two blocks (2 and 3). *)

Definition sb_wide : SuperBlock :=
  {| magic := FS_MAGIC; blockSize := 64; totalBlocks := 517;
     inodeTableStart := 1; inodeTableBlocks := 1; inodeCount := 1;
     freeBitmapStart := 2; freeBitmapBlocks := 2;
     dataBlockStart := 4; dataBlockCount := 513; rootInodeId := 0 |}.

Definition img_wide : bytes :=
  pad 64 (superblock_bytes sb_wide)
  ++ pad 64 (inode_bytes (dir_inode 0 [4]))
  ++ pad 64 [x01]                            (* bitmap, bits 0..511 *)
  ++ pad 64 [x00]                            (* bitmap, bit 512 *)
  ++ repeat x00 (513 * 64).

Definition f_wide : file := open_image img_wide.


End Fixture.

(** ** Views of the image used in the statements *)

(** The four bytes at offset [off] as a little-endian unsigned integer. *)
Definition u32_at (img : bytes) (off : nat) : Z :=
  byte_val (nth off img x00)
  + 256 * byte_val (nth (off + 1) img x00)
  + 65536 * byte_val (nth (off + 2) img x00)
  + 16777216 * byte_val (nth (off + 3) img x00).

(** The bytes of block [b]: file offsets [b * blockSize] up to
    [b * blockSize + blockSize]. *)
Definition block_bytes (sb : SuperBlock) (img : bytes) (b : Z) : bytes :=
  slice img (Z.to_nat (b * blockSize sb)) (Z.to_nat (blockSize sb)).

(** Block [b] can be read: its identifier is in range, its offset is one
    the runtime can seek to and the image holds all of its bytes. *)
Definition block_readable (sb : SuperBlock) (img : bytes) (b : Z) : Prop :=
  0 <= b < totalBlocks sb /\
  b * blockSize sb < MAX_OFFSET /\
  b * blockSize sb + blockSize sb <= Z.of_nat (length img).

(** Plain splitting at the separator, empty components included (what
    [path.split("/")] yields). *)
Fixpoint split_on_sep (path : str) : list str :=
  match path with
  | [] => [[]]
  | ch :: rest =>
      match split_on_sep rest with
      | [] => [[]]
      | c :: cs => if N.eqb ch SEP then [] :: c :: cs else (ch :: c) :: cs
      end
  end.

Definition nonempty (s : str) : bool :=
  match s with
  | [] => false
  | _ :: _ => true
  end.

(** The inode [i] as the image holds it, when its record can be addressed,
    its offset is one the runtime can seek to and it lies within the
    image. *)
Definition inode_at (sb : SuperBlock) (img : bytes) (i : Z) : option Inode :=
  match inode_offset sb i with
  | Ok off =>
      if (0 <=? off) && (off <? MAX_OFFSET)
         && (off + INODE_SIZE <=? Z.of_nat (length img))
      then Some (unpack_inode
                   (slice img (Z.to_nat off) (Z.to_nat INODE_SIZE)))
      else None
  | Raise _ => None
  end.

(** The 64-byte records of a directory block in on-disk order, unused
    slots included: record [k] occupies bytes [64 * k] up to [64 * k + 64]. *)
Definition dir_records (block : bytes) : list (Z * bytes) :=
  map (fun k => unpack_direntry (slice block (k * 64) 64))
      (seq 0 (length block / 64)).

Definition in_use (rec : Z * bytes) : bool := negb (fst rec =? 0).

(** The state left by a read of [n] bytes at position [off]. *)
Definition after_read (f : file) (off n : Z) : file :=
  {| image := image f; pos := off + n; reads := reads f ++ [(off, n)] |}.

(** Closed comparisons between quantities of a concrete image. *)
Ltac by_evaluation :=
  vm_compute; repeat split; solve [reflexivity | discriminate | auto].

(** The components glued back with a separator between neighbours
    (["/".join(comps)]). *)
Fixpoint join_sep (comps : list str) : str :=
  match comps with
  | [] => []
  | [c] => c
  | c :: rest => c ++ SEP :: join_sep rest
  end.

(** What [split_path] returns from the state reached by its loop. *)
Definition split_path_finish (st : list str * str) : list str :=
  let '(comps, cur) := st in
  match cur with
  | [] => comps
  | _ :: _ => comps ++ [cur]
  end.

(** The name a record shows once decoded. *)
Definition entry_name (decode : bytes -> str) (raw : bytes) : str :=
  decode (until_nul raw).

(** Whether the image holds a directory inode under [cid]. *)
Definition is_dir_at (sb : SuperBlock) (img : bytes) (cid : Z) : bool :=
  match inode_at sb img cid with
  | Some child => is_dir child
  | None => false
  end.

(** A name as [list_dir] shows it: directories carry a trailing ["/"]. *)
Definition listed (sb : SuperBlock) (img : bytes) (e : Z * str) : str :=
  snd e ++ (if is_dir_at sb img (fst e) then [SEP] else []).

Definition child_readable (sb : SuperBlock) (img : bytes) {A : Type}
    (e : Z * A) : Prop :=
  inode_at sb img (fst e) <> None.

(** The entries [list_dir] goes through: the records in use of the first
    block of the directory, in on-disk order. *)
Definition entries_of (sb : SuperBlock) (img : bytes) (ino : Inode)
  : list (Z * bytes) :=
  filter in_use (dir_records (block_bytes sb img (hd 0 (direct ino)))).

(** The direct blocks before the first 0 identifier. *)
Fixpoint leading_nonzero (blocks : list Z) : list Z :=
  match blocks with
  | [] => []
  | b :: rest => if b =? 0 then [] else b :: leading_nonzero rest
  end.

(** The blocks the loop of [read_file_content] visits: it stops at the
    first 0 identifier or once nothing remains to be read. *)
Fixpoint visited_blocks (bsz : Z) (blocks : list Z) (remaining : Z)
  : list Z :=
  match blocks with
  | [] => []
  | b :: rest =>
      if (remaining <=? 0) || (b =? 0) then []
      else b :: visited_blocks bsz rest (remaining - Z.min remaining bsz)
  end.

(** The [min(remaining, blockSize)]-byte prefixes of the visited blocks, in
    the order of the array. *)
Fixpoint file_chunks (sb : SuperBlock) (img : bytes) (blocks : list Z)
    (remaining : Z) : list bytes :=
  match blocks with
  | [] => []
  | b :: rest =>
      if (remaining <=? 0) || (b =? 0) then []
      else
        let take := Z.min remaining (blockSize sb) in
        firstn (Z.to_nat take) (block_bytes sb img b)
          :: file_chunks sb img rest (remaining - take)
  end.

(** The bytes the leading non-zero direct blocks can supply. *)
Definition supply (sb : SuperBlock) (ino : Inode) : Z :=
  blockSize sb * Z.of_nat (length (leading_nonzero (direct ino))).

(** Logical bit [i] of a bitmap block: bit [i mod 8] of byte [i div 8]. *)
Definition logical_bit (bmp : bytes) (i : Z) : bool :=
  Z.testbit (byte_val (nth (Z.to_nat (i / 8)) bmp x00)) (i mod 8).

(** The number of set bits among the [n] logical bits from [start] on. *)
Fixpoint used_bits (bmp : bytes) (start : Z) (n : nat) : Z :=
  match n with
  | O => 0
  | S k => Z.b2z (logical_bit bmp start) + used_bits bmp (start + 1) k
  end.

(** The failure of [read_block] on a block that cannot be read: the
    range error, else the refusal of the seek, else the short read. *)
Definition block_failure (sb : SuperBlock) (b : Z) : error :=
  if (b <? 0) || (b >=? totalBlocks sb) then BlockOutOfRange
  else if MAX_OFFSET <=? b * blockSize sb then SeekError
  else UnexpectedEOF.

(** The failure of [read_inode] on an inode that cannot be read: the
    failure of [inode_offset], else the refusal of the seek, else the short
    read. *)
Definition inode_failure (sb : SuperBlock) (i : Z) : error :=
  match inode_offset sb i with
  | Raise e => e
  | Ok off =>
      if (off <? 0) || (MAX_OFFSET <=? off) then SeekError
      else UnexpectedEOF
  end.

(** ** Elementary facts about the file operations *)

Lemma bind_ok {A B : Type} (m : io A) (k : A -> io B) f a f' :
  m f = (Ok a, f') -> bind m k f = k a f'.
Proof. intros H; unfold bind; now rewrite H. Qed.

Lemma bind_raise {A B : Type} (m : io A) (k : A -> io B) f e f' :
  m f = (Raise e, f') -> bind m k f = (Raise e, f').
Proof. intros H; unfold bind; now rewrite H. Qed.

Lemma slice_length {A : Type} (l : list A) (i n : nat) :
  (i + n <= length l)%nat -> length (slice l i n) = n.
Proof.
  intros H; unfold slice.
  rewrite length_firstn, length_skipn; lia.
Qed.

Lemma slice_length_le {A : Type} (l : list A) (i n : nat) :
  (length (slice l i n) <= n)%nat.
Proof. unfold slice; rewrite length_firstn; lia. Qed.

Lemma slice_short {A : Type} (l : list A) (i n : nat) :
  (0 < n)%nat -> (length l < i + n)%nat -> (length (slice l i n) < n)%nat.
Proof.
  intros H0 H; unfold slice.
  rewrite length_firstn, length_skipn; lia.
Qed.

Lemma f_seek_ok (off : Z) (f : file) :
  0 <= off < MAX_OFFSET ->
  f_seek off f
  = (Ok tt, {| image := image f; pos := off; reads := reads f |}).
Proof.
  intros H. unfold f_seek.
  destruct (off <? 0) eqn:E1; [apply Z.ltb_lt in E1; lia|].
  destruct (MAX_OFFSET <=? off) eqn:E2; [apply Z.leb_le in E2; lia|].
  reflexivity.
Qed.

Lemma f_seek_refused (off : Z) (f : file) :
  off < 0 \/ MAX_OFFSET <= off ->
  f_seek off f = (Raise SeekError, f).
Proof.
  intros H. unfold f_seek.
  destruct (off <? 0) eqn:E1; [reflexivity|].
  destruct (MAX_OFFSET <=? off) eqn:E2; [reflexivity|].
  apply Z.ltb_ge in E1. apply Z.leb_gt in E2. lia.
Qed.

Lemma f_seek_image (off : Z) (f : file) :
  image (snd (f_seek off f)) = image f.
Proof. unfold f_seek. destruct (_ || _); reflexivity. Qed.

Lemma read_exact_ok (n : Z) (f : file) :
  0 <= n -> 0 <= pos f ->
  pos f + n <= Z.of_nat (length (image f)) ->
  read_exact n f
  = (Ok (slice (image f) (Z.to_nat (pos f)) (Z.to_nat n)),
     after_read f (pos f) n).
Proof.
  intros Hn Hp Hlen.
  unfold read_exact, bind, f_read.
  destruct (n <? -1) eqn:E0; [apply Z.ltb_lt in E0; lia|].
  destruct (n <? 0) eqn:E; [apply Z.ltb_lt in E; lia|].
  fold (slice (image f) (Z.to_nat (pos f)) (Z.to_nat n)).
  rewrite slice_length by lia.
  rewrite Z2Nat.id by lia.
  rewrite Z.eqb_refl. reflexivity.
Qed.

Lemma read_exact_short (n : Z) (f : file) :
  0 < n -> 0 <= pos f ->
  Z.of_nat (length (image f)) < pos f + n ->
  exists f', read_exact n f = (Raise UnexpectedEOF, f')
             /\ image f' = image f.
Proof.
  intros Hn Hp Hlen.
  unfold read_exact, bind, f_read.
  destruct (n <? -1) eqn:E0; [apply Z.ltb_lt in E0; lia|].
  destruct (n <? 0) eqn:E; [apply Z.ltb_lt in E; lia|].
  fold (slice (image f) (Z.to_nat (pos f)) (Z.to_nat n)).
  assert (Hs : (length (slice (image f) (Z.to_nat (pos f)) (Z.to_nat n))
                < Z.to_nat n)%nat) by (apply slice_short; lia).
  destruct (Z.of_nat _ =? n) eqn:E2; [apply Z.eqb_eq in E2; lia|].
  eexists; split; reflexivity.
Qed.

Lemma read_exact_image (n : Z) (f : file) :
  image (snd (read_exact n f)) = image f.
Proof.
  unfold read_exact, bind, f_read.
  destruct (n <? -1); [reflexivity|].
  destruct (negb _); reflexivity.
Qed.

Lemma read_block_readable (sb : SuperBlock) (b : Z) (f : file) :
  0 <= blockSize sb ->
  block_readable sb (image f) b ->
  read_block sb b f
  = (Ok (block_bytes sb (image f) b),
     after_read f (b * blockSize sb) (blockSize sb)).
Proof.
  intros Hbs [[Hb0 Hb1] [Hmax Hlen]].
  unfold read_block.
  destruct (b <? 0) eqn:E1; [apply Z.ltb_lt in E1; lia|].
  destruct (b >=? totalBlocks sb) eqn:E2; [apply Z.geb_le in E2; lia|].
  cbn [orb]. unfold file_offset_of_block.
  rewrite (bind_ok _ _ _ _ _
             (f_seek_ok (b * blockSize sb) f ltac:(nia))).
  rewrite read_exact_ok; simpl; try lia; try nia.
  reflexivity.
Qed.

Lemma read_block_image (sb : SuperBlock) (b : Z) (f : file) :
  image (snd (read_block sb b f)) = image f.
Proof.
  unfold read_block.
  destruct (_ || _); [reflexivity|].
  unfold bind.
  pose proof (f_seek_image (file_offset_of_block sb b) f) as Hs.
  destruct (f_seek (file_offset_of_block sb b) f) as [[u|e] g];
    simpl in Hs; [|exact Hs].
  pose proof (read_exact_image (blockSize sb) g) as H.
  destruct (read_exact (blockSize sb) g) as [[a|e] f']; simpl in *;
    congruence.
Qed.

(** A block that is not readable makes [read_block] fail, with the
    range error, the refusal of the seek or the short read, in this
    order. *)
Lemma read_block_unreadable (sb : SuperBlock) (b : Z) (f : file) :
  0 < blockSize sb ->
  ~ block_readable sb (image f) b ->
  exists f', read_block sb b f = (Raise (block_failure sb b), f')
             /\ image f' = image f.
Proof.
  intros Hbs Hn.
  unfold read_block, block_failure.
  destruct (b <? 0) eqn:E1; [exists f; simpl; auto|].
  destruct (b >=? totalBlocks sb) eqn:E2; [exists f; simpl; auto|].
  apply Z.ltb_ge in E1. rewrite Z.geb_leb in E2. apply Z.leb_gt in E2.
  cbn [orb]. unfold file_offset_of_block.
  destruct (MAX_OFFSET <=? b * blockSize sb) eqn:E3.
  - apply Z.leb_le in E3.
    rewrite (bind_raise _ _ _ _ _ (f_seek_refused _ f (or_intror E3))).
    exists f. auto.
  - apply Z.leb_gt in E3.
    rewrite (bind_ok _ _ _ _ _
             (f_seek_ok (b * blockSize sb) f ltac:(nia))).
    match goal with
    | |- context [read_exact ?n ?g] =>
        destruct (read_exact_short n g) as [g' [Hg Hi]];
        [lia | simpl; nia | simpl | rewrite Hg; exists g'; auto]
    end.
    unfold block_readable in Hn. lia.
Qed.

(** A block read that succeeds returned a readable block's bytes. *)
Lemma read_block_inv (sb : SuperBlock) (b : Z) (f f' : file) (blk : bytes) :
  0 < blockSize sb ->
  read_block sb b f = (Ok blk, f') ->
  block_readable sb (image f) b
  /\ blk = block_bytes sb (image f) b
  /\ f' = after_read f (b * blockSize sb) (blockSize sb).
Proof.
  intros Hbs H.
  assert (Hr : block_readable sb (image f) b).
  { assert (Hdec : block_readable sb (image f) b
                   \/ ~ block_readable sb (image f) b)
      by (unfold block_readable; lia).
    destruct Hdec as [Hr|Hr]; [exact Hr|].
    destruct (read_block_unreadable sb b f Hbs Hr) as [g [Hg _]].
    rewrite Hg in H. discriminate. }
  rewrite read_block_readable in H by (lia || assumption).
  inversion H; subst. auto.
Qed.

(** ** Block accessor *)




(** ** Inode table *)

(** C4. With [inodesPerBlock = blockSize div 44]: [inode_offset] fails with
    the layout error when [inodesPerBlock] is zero; else with the range
    error when [inode_id] is outside [0, inodeCount); else with the
    geometry-mismatch error when [inode_id div inodesPerBlock] reaches
    [inodeTableBlocks]; and otherwise returns
    [(inodeTableStart + inode_id div inodesPerBlock) * blockSize
     + (inode_id mod inodesPerBlock) * 44]. *)
Theorem inode_offset_spec (sb : SuperBlock) (inode_id : Z) :
  0 <= blockSize sb ->
  let inodesPerBlock := blockSize sb / 44 in
  (inodesPerBlock = 0 -> inode_offset sb inode_id = Raise InvalidLayout)
  /\ (inodesPerBlock <> 0 ->
      inode_id < 0 \/ inodeCount sb <= inode_id ->
      inode_offset sb inode_id = Raise InodeOutOfRange)
  /\ (inodesPerBlock <> 0 ->
      0 <= inode_id < inodeCount sb ->
      inodeTableBlocks sb <= inode_id / inodesPerBlock ->
      inode_offset sb inode_id = Raise GeometryMismatch)
  /\ (inodesPerBlock <> 0 ->
      0 <= inode_id < inodeCount sb ->
      inode_id / inodesPerBlock < inodeTableBlocks sb ->
      inode_offset sb inode_id
      = Ok ((inodeTableStart sb + inode_id / inodesPerBlock) * blockSize sb
            + (inode_id mod inodesPerBlock) * 44)).
Proof.
  intros Hbs ipb.
  assert (Hipb : 0 <= ipb) by (apply Z.div_pos; lia).
  unfold inode_offset, file_offset_of_block, INODE_SIZE. fold ipb.
  repeat split.
  - intros ->. reflexivity.
  - intros Hne Hout.
    destruct (ipb <=? 0) eqn:E0; [apply Z.leb_le in E0; lia|].
    destruct (inode_id <? 0) eqn:E1; [reflexivity|].
    destruct (inode_id >=? inodeCount sb) eqn:E2; [reflexivity|].
    apply Z.ltb_ge in E1. rewrite Z.geb_leb in E2. apply Z.leb_gt in E2. lia.
  - intros Hne Hin Hge.
    destruct (ipb <=? 0) eqn:E0; [apply Z.leb_le in E0; lia|].
    destruct (inode_id <? 0) eqn:E1; [apply Z.ltb_lt in E1; lia|].
    destruct (inode_id >=? inodeCount sb) eqn:E2;
      [apply Z.geb_le in E2; lia|].
    simpl.
    destruct (inode_id / ipb >=? inodeTableBlocks sb) eqn:E3; [reflexivity|].
    rewrite Z.geb_leb in E3. apply Z.leb_gt in E3. lia.
  - intros Hne Hin Hlt.
    destruct (ipb <=? 0) eqn:E0; [apply Z.leb_le in E0; lia|].
    destruct (inode_id <? 0) eqn:E1; [apply Z.ltb_lt in E1; lia|].
    destruct (inode_id >=? inodeCount sb) eqn:E2;
      [apply Z.geb_le in E2; lia|].
    simpl.
    destruct (inode_id / ipb >=? inodeTableBlocks sb) eqn:E3;
      [apply Z.geb_le in E3; lia|].
    reflexivity.
Qed.

Lemma inode_offset_spec_witness :
  inode_offset Fixture.sb 6 = Ok ((1 + 6 / 11) * 512 + (6 mod 11) * 44)
  /\ inode_offset Fixture.sb 11 = Raise InodeOutOfRange
  /\ inode_offset (mkSuperBlock FS_MAGIC 512 12 1 1 12 2 1 3 9 1) 11
     = Raise GeometryMismatch
  /\ inode_offset (mkSuperBlock FS_MAGIC 40 12 1 1 11 2 1 3 9 1) 0
     = Raise InvalidLayout.
Proof.
  split; [|split; [|split]].
  - destruct (inode_offset_spec Fixture.sb 6) as (_ & _ & _ & H);
      [by_evaluation|].
    apply H; by_evaluation.
  - destruct (inode_offset_spec Fixture.sb 11) as (_ & H & _);
      [by_evaluation|].
    apply H; [|right]; by_evaluation.
  - destruct (inode_offset_spec
                (mkSuperBlock FS_MAGIC 512 12 1 1 12 2 1 3 9 1) 11)
      as (_ & _ & H & _); [by_evaluation|].
    apply H; by_evaluation.
  - destruct (inode_offset_spec
                (mkSuperBlock FS_MAGIC 40 12 1 1 11 2 1 3 9 1) 0)
      as (H & _); [by_evaluation|].
    apply H; by_evaluation.
Defined.

(** ** Path splitting *)

Lemma split_on_sep_not_nil (path : str) : split_on_sep path <> [].
Proof.
  destruct path as [|ch rest]; simpl; [discriminate|].
  destruct (split_on_sep rest); [discriminate|].
  destruct (N.eqb ch SEP); discriminate.
Qed.

(** Gluing the pieces of [split_on_sep] back gives the path: the pieces
    are its separator-delimited components. *)
Lemma join_split_on_sep (path : str) : join_sep (split_on_sep path) = path.
Proof.
  induction path as [|ch rest IH]; [reflexivity|].
  simpl. pose proof (split_on_sep_not_nil rest) as Hne.
  destruct (split_on_sep rest) as [|c cs]; [contradiction|].
  destruct (N.eqb ch SEP) eqn:E.
  - apply N.eqb_eq in E. subst ch. simpl. now rewrite <- IH.
  - destruct cs; simpl in *; now rewrite <- IH.
Qed.

Lemma split_on_sep_no_sep (path : str) :
  Forall (fun c => ~ In SEP c) (split_on_sep path).
Proof.
  induction path as [|ch rest IH]; simpl.
  - constructor; [intros []|constructor].
  - destruct (split_on_sep rest) as [|c cs];
      [constructor; [intros []|constructor]|].
    inversion IH; subst.
    destruct (N.eqb ch SEP) eqn:E.
    + constructor; [intros []|constructor; assumption].
    + constructor; [|assumption].
      apply N.eqb_neq in E. intros [H|H]; [congruence|contradiction].
Qed.

Lemma split_path_loop_spec (path : str) :
  forall comps cur,
    split_path_finish (split_path_loop path comps cur)
    = comps ++ filter nonempty
                 (match split_on_sep path with
                  | [] => [cur]
                  | c :: cs => (cur ++ c) :: cs
                  end).
Proof.
  induction path as [|ch rest IH]; intros comps cur.
  - simpl. rewrite app_nil_r.
    destruct cur; simpl; [now rewrite app_nil_r|reflexivity].
  - simpl. pose proof (split_on_sep_not_nil rest) as Hne.
    destruct (N.eqb ch SEP) eqn:E.
    + destruct cur as [|x cur].
      * rewrite IH. destruct (split_on_sep rest) as [|c cs]; [contradiction|].
        reflexivity.
      * rewrite IH. destruct (split_on_sep rest) as [|c cs]; [contradiction|].
        rewrite app_nil_r. simpl. now rewrite <- app_assoc.
    + rewrite IH. destruct (split_on_sep rest) as [|c cs]; [contradiction|].
      now rewrite <- app_assoc.
Qed.

(** C9. [split_path] emits exactly the non-empty separator-delimited
    components of its input, in order; ["/a//b/"], ["a/b"] and ["//a/b//"]
    all split into the two components ["a"], ["b"]. *)
Theorem split_path_spec :
  (forall path, split_path path = filter nonempty (split_on_sep path))
  /\ split_path (lit "/a//b/") = [lit "a"; lit "b"]
  /\ split_path (lit "a/b") = [lit "a"; lit "b"]
  /\ split_path (lit "//a/b//") = [lit "a"; lit "b"].
Proof.
  split; [|repeat split; reflexivity].
  intros path.
  pose proof (split_path_loop_spec path [] []) as H.
  unfold split_path. unfold split_path_finish in H.
  destruct (split_path_loop path [] []) as [comps cur].
  rewrite H. simpl.
  destruct (split_on_sep path); reflexivity.
Qed.

Lemma split_path_loop_separators (path : str) (comps : list str) :
  Forall (fun ch => ch = SEP) path ->
  split_path_loop path comps [] = (comps, []).
Proof.
  induction 1 as [|ch rest Hch _ IH]; [reflexivity|].
  subst ch. simpl. exact IH.
Qed.

Lemma split_path_separators (path : str) :
  Forall (fun ch => ch = SEP) path -> split_path path = [].
Proof.
  intros H. unfold split_path.
  now rewrite split_path_loop_separators.
Qed.

Lemma str_eqb_eq (a b : str) : str_eqb a b = true <-> a = b.
Proof.
  unfold str_eqb. destruct (list_eq_dec N.eq_dec a b); split;
    intros; (assumption || discriminate || reflexivity || contradiction).
Qed.

Lemma str_eqb_refl (a : str) : str_eqb a a = true.
Proof. now apply str_eqb_eq. Qed.

Lemma str_eqb_neq (a b : str) : str_eqb a b = false <-> a <> b.
Proof.
  unfold str_eqb. destruct (list_eq_dec N.eq_dec a b); split;
    intros; (assumption || discriminate || reflexivity || contradiction).
Qed.

(** ** SuperBlock reader *)

Lemma le_uint_4 (a b c d : byte) :
  le_uint [a; b; c; d]
  = byte_val a + 256 * byte_val b + 65536 * byte_val c
    + 16777216 * byte_val d.
Proof. cbn [le_uint]. ring. Qed.

Lemma unpack_uint32s_at (n : nat) :
  forall raw, (4 * n <= length raw)%nat ->
    unpack_uint32s n raw = map (fun k => u32_at raw (4 * k)) (seq 0 n).
Proof.
  induction n as [|n IH]; intros raw Hlen; [reflexivity|].
  cbn [unpack_uint32s].
  destruct raw as [|a [|b [|c [|d rest]]]]; try (simpl in Hlen; lia).
  change (firstn 4 (a :: b :: c :: d :: rest)) with [a; b; c; d].
  change (skipn 4 (a :: b :: c :: d :: rest)) with rest.
  rewrite le_uint_4, IH by (simpl in Hlen; lia).
  cbn [seq map]. f_equal.
  rewrite <- seq_shift, map_map.
  apply map_ext. intros k. unfold u32_at.
  replace (4 * S k)%nat with (4 + 4 * k)%nat by lia.
  reflexivity.
Qed.

Lemma u32_at_firstn (img : bytes) (n off : nat) :
  (off + 4 <= n)%nat -> u32_at (firstn n img) off = u32_at img off.
Proof.
  intros H. unfold u32_at.
  rewrite !nth_firstn.
  repeat match goal with
  | |- context [(?a <? ?b)%nat] =>
      let E := fresh in destruct (a <? b)%nat eqn:E;
      [|apply Nat.ltb_ge in E; lia]
  end.
  reflexivity.
Qed.

(** C5. [read_superblock] decodes the first 44 bytes of the image as
    eleven consecutive little-endian 4-byte unsigned integers, in the order
    of the fields; it fails with the bad-magic error when the first differs
    from the constant, with the invalid-geometry error when [blockSize] or
    [totalBlocks] is not positive, and otherwise returns the eleven fields
    whatever the other nine hold. *)
Theorem read_superblock_spec (img : bytes) :
  (44 <= length img)%nat ->
  let field k := u32_at img (4 * k) in
  let r := read_superblock (open_image img) in
  reads (snd r) = [(0, 44)]
  /\ (field 0%nat <> FS_MAGIC -> fst r = Raise BadMagic)
  /\ (field 0%nat = FS_MAGIC ->
      field 1%nat <= 0 \/ field 2%nat <= 0 ->
      fst r = Raise InvalidGeometry)
  /\ (field 0%nat = FS_MAGIC ->
      0 < field 1%nat -> 0 < field 2%nat ->
      fst r = Ok {| magic := field 0%nat;
                    blockSize := field 1%nat;
                    totalBlocks := field 2%nat;
                    inodeTableStart := field 3%nat;
                    inodeTableBlocks := field 4%nat;
                    inodeCount := field 5%nat;
                    freeBitmapStart := field 6%nat;
                    freeBitmapBlocks := field 7%nat;
                    dataBlockStart := field 8%nat;
                    dataBlockCount := field 9%nat;
                    rootInodeId := field 10%nat |}).
Proof.
  intros Hlen field r.
  assert (Hraw : read_exact 44 (open_image img)
                 = (Ok (firstn 44 img), after_read (open_image img) 0 44)).
  { rewrite read_exact_ok; simpl; try lia. reflexivity. }
  assert (Hvals : unpack_uint32s 11 (firstn 44 img)
                  = map field (seq 0 11)).
  { rewrite unpack_uint32s_at by (rewrite length_firstn; lia).
    apply map_ext_in. intros k Hk. apply in_seq in Hk.
    apply u32_at_firstn. lia. }
  subst r. unfold read_superblock.
  rewrite (bind_ok _ _ _ _ _ Hraw), Hvals.
  cbn [seq map magic blockSize totalBlocks].
  destruct (field 0%nat =? FS_MAGIC) eqn:Em.
  - apply Z.eqb_eq in Em. cbn [negb].
    destruct (field 1%nat <=? 0) eqn:E1; destruct (field 2%nat <=? 0) eqn:E2;
      cbn [orb]; unfold raise, ret; cbn [fst snd];
      try apply Z.leb_le in E1; try apply Z.leb_le in E2;
      try apply Z.leb_gt in E1; try apply Z.leb_gt in E2;
      repeat split; intros; try reflexivity; try lia; try contradiction.
  - apply Z.eqb_neq in Em. cbn [negb]. unfold raise; cbn [fst snd].
    repeat split; intros; try reflexivity; contradiction.
Qed.

Lemma read_superblock_spec_witness :
  fst (read_superblock Fixture.f) = Ok Fixture.sb.
Proof.
  destruct (read_superblock_spec Fixture.img) as (_ & _ & _ & H);
    [apply Nat.leb_le; reflexivity|].
  unfold Fixture.f. rewrite H; by_evaluation.
Defined.

(** ** Inode records *)

Lemma byte_val_nonneg (b : byte) : 0 <= byte_val b.
Proof. unfold byte_val. lia. Qed.

Lemma le_uint_nonneg (bs : bytes) : 0 <= le_uint bs.
Proof.
  induction bs as [|b rest IH]; cbn [le_uint]; [lia|].
  pose proof (byte_val_nonneg b). lia.
Qed.

Lemma unpack_uint32s_length (n : nat) (raw : bytes) :
  length (unpack_uint32s n raw) = n.
Proof.
  revert raw. induction n as [|n IH]; intros raw; simpl; [reflexivity|].
  now rewrite IH.
Qed.

Lemma unpack_inode_shape (raw : bytes) :
  0 <= size (unpack_inode raw)
  /\ exists d0 ds, direct (unpack_inode raw) = d0 :: ds.
Proof.
  split; [apply le_uint_nonneg|].
  unfold unpack_inode. cbn [direct unpack_uint32s]. eauto.
Qed.

Lemma inode_offset_ok_blockSize (sb : SuperBlock) (i off : Z) :
  inode_offset sb i = Ok off -> 0 < blockSize sb.
Proof.
  unfold inode_offset, INODE_SIZE. intros H.
  destruct (blockSize sb / 44 <=? 0) eqn:E; [discriminate|].
  apply Z.leb_gt in E.
  destruct (Z_lt_le_dec 0 (blockSize sb)) as [Hp|Hn]; [exact Hp|].
  exfalso.
  assert (blockSize sb / 44 <= 0) by (apply Z.div_le_upper_bound; lia).
  lia.
Qed.

Lemma read_inode_image (sb : SuperBlock) (i : Z) (f : file) :
  image (snd (read_inode sb i f)) = image f.
Proof.
  unfold read_inode.
  destruct (inode_offset sb i) as [off|e]; [|reflexivity].
  unfold bind.
  pose proof (f_seek_image off f) as Hs.
  destruct (f_seek off f) as [[u|e] g]; simpl in Hs; [|exact Hs].
  pose proof (read_exact_image INODE_SIZE g) as H.
  destruct (read_exact INODE_SIZE g) as [[a|e] f']; simpl in *; congruence.
Qed.

Lemma read_inode_at (sb : SuperBlock) (i : Z) (f : file) (ino : Inode) :
  inode_at sb (image f) i = Some ino ->
  exists off, inode_offset sb i = Ok off
              /\ read_inode sb i f = (Ok ino, after_read f off INODE_SIZE).
Proof.
  unfold inode_at, read_inode. intros H.
  destruct (inode_offset sb i) as [off|e]; [|discriminate].
  destruct (0 <=? off) eqn:E0; [|discriminate].
  destruct (off <? MAX_OFFSET) eqn:Em; [|discriminate].
  destruct (off + INODE_SIZE <=? _) eqn:E1; [|discriminate].
  apply Z.leb_le in E0, E1. apply Z.ltb_lt in Em.
  simpl in H. inversion H; subst ino.
  exists off. split; [reflexivity|].
  rewrite (bind_ok _ _ _ _ _ (f_seek_ok off f (conj E0 Em))).
  unfold bind. rewrite read_exact_ok; simpl; try (unfold INODE_SIZE in *; lia).
  reflexivity.
Qed.

Lemma read_inode_missing (sb : SuperBlock) (i : Z) (f : file) :
  inode_at sb (image f) i = None ->
  exists f', read_inode sb i f = (Raise (inode_failure sb i), f')
             /\ image f' = image f.
Proof.
  unfold inode_at, inode_failure, read_inode. intros E.
  destruct (inode_offset sb i) as [off|e]; [|exists f; auto].
  destruct (off <? 0) eqn:E0.
  - apply Z.ltb_lt in E0. cbn [orb].
    rewrite (bind_raise _ _ _ _ _ (f_seek_refused off f (or_introl E0))).
    exists f. auto.
  - apply Z.ltb_ge in E0. cbn [orb].
    destruct (MAX_OFFSET <=? off) eqn:Em.
    + apply Z.leb_le in Em.
      rewrite (bind_raise _ _ _ _ _ (f_seek_refused off f (or_intror Em))).
      exists f. auto.
    + apply Z.leb_gt in Em.
      rewrite (bind_ok _ _ _ _ _ (f_seek_ok off f (conj E0 Em))).
      destruct (0 <=? off) eqn:E0'; [|apply Z.leb_gt in E0'; lia].
      destruct (off <? MAX_OFFSET) eqn:Em'; [|apply Z.ltb_ge in Em'; lia].
      destruct (off + INODE_SIZE <=? _) eqn:E1; [discriminate|].
      apply Z.leb_gt in E1. unfold bind.
      match goal with
      | |- context [read_exact ?n ?g] =>
          destruct (read_exact_short n g) as [g' [Hg Hi]];
          [reflexivity | simpl; lia | simpl; lia |]
      end.
      rewrite Hg. exists g'. auto.
Qed.

Lemma read_inode_inv (sb : SuperBlock) (i : Z) (f f' : file) (ino : Inode) :
  read_inode sb i f = (Ok ino, f') ->
  inode_at sb (image f) i = Some ino
  /\ exists off, inode_offset sb i = Ok off
                 /\ f' = after_read f off INODE_SIZE.
Proof.
  intros H.
  destruct (inode_at sb (image f) i) as [ino'|] eqn:E.
  - destruct (read_inode_at _ _ _ _ E) as [off [Hoff Hr]].
    rewrite Hr in H. inversion H; subst. eauto.
  - destruct (read_inode_missing _ _ _ E) as [g [Hg _]].
    rewrite Hg in H. discriminate.
Qed.

Lemma inode_at_shape (sb : SuperBlock) (img : bytes) (i : Z) (ino : Inode) :
  inode_at sb img i = Some ino ->
  0 < blockSize sb /\ 0 <= size ino /\ exists d0 ds, direct ino = d0 :: ds.
Proof.
  unfold inode_at. intros H.
  destruct (inode_offset sb i) as [off|e] eqn:Hoff; [|discriminate].
  destruct (_ && _); [|discriminate].
  inversion H; subst ino.
  split; [eapply inode_offset_ok_blockSize; eauto|].
  apply unpack_inode_shape.
Qed.

(** ** Directory blocks *)

Lemma find_child_first {A : Type} (dec : A -> str) (name : str) :
  forall (recs : list (Z * A)) (k : nat) (cid : Z) (raw : A),
    nth_error recs k = Some (cid, raw) ->
    cid <> 0 ->
    dec raw = name ->
    (forall j cj rj, (j < k)%nat -> nth_error recs j = Some (cj, rj) ->
                     cj = 0 \/ dec rj <> name) ->
    find_child name
      (map (fun r => (fst r, dec (snd r)))
           (filter (fun r => negb (fst r =? 0)) recs))
    = Some cid.
Proof.
  induction recs as [|[c0 r0] recs IH]; intros k cid raw Hk Hcid Hname Hbefore.
  - destruct k; discriminate.
  - destruct k as [|k].
    + simpl in Hk. inversion Hk; subst c0 r0.
      cbn [filter fst]. destruct (cid =? 0) eqn:E;
        [apply Z.eqb_eq in E; contradiction|].
      cbn [negb map find_child fst snd]. rewrite Hname, str_eqb_refl.
      reflexivity.
    + simpl in Hk.
      assert (IH' : find_child name
                      (map (fun r => (fst r, dec (snd r)))
                         (filter (fun r => negb (fst r =? 0)) recs))
                    = Some cid).
      { apply (IH k cid raw Hk Hcid Hname).
        intros j cj rj Hj Hnth. apply (Hbefore (S j) cj rj); [lia|exact Hnth]. }
      cbn [filter fst]. destruct (c0 =? 0) eqn:E; cbn [negb]; [exact IH'|].
      cbn [map find_child fst snd].
      destruct (Hbefore 0%nat c0 r0) as [H0|H0]; [lia|reflexivity| |].
      * apply Z.eqb_neq in E. contradiction.
      * apply str_eqb_neq in H0. rewrite H0. exact IH'.
Qed.

Section DirectoryProperties.

Variable decode : bytes -> str.

Lemma parse_dir_loop_records (block : bytes) (m : nat) :
  forall a,
    parse_dir_loop decode block (map (fun k => (k * 64)%nat) (seq a m))
    = map (fun r => (fst r, entry_name decode (snd r)))
        (filter in_use
           (map (fun k => unpack_direntry (slice block (k * 64) 64))
                (seq a (Nat.min m (length block / 64 - a))))).
Proof.
  induction m as [|m IH]; intros a; [reflexivity|].
  cbn [seq map parse_dir_loop].
  change (Z.to_nat DIRENTRY_SIZE) with 64%nat.
  change DIRENTRY_SIZE with (Z.of_nat 64).
  destruct (Nat.le_gt_cases (length block / 64) a) as [Hge|Hlt].
  - (* the chunk at offset [64 * a] is cut short: the loop breaks *)
    replace (Nat.min (S m) (length block / 64 - a)) with 0%nat by lia.
    assert (Hshort : (length block < a * 64 + 64)%nat).
    { destruct (Nat.lt_ge_cases (length block) (a * 64 + 64)) as [H|H];
        [exact H|].
      assert ((a + 1) * 64 / 64 <= length block / 64)%nat
        by (apply Nat.Div0.div_le_mono; lia).
      rewrite Nat.div_mul in H0 by lia. lia. }
    pose proof (slice_short block (a * 64) 64 ltac:(lia) Hshort) as Hs.
    destruct (Z.of_nat _ =? Z.of_nat 64) eqn:E;
      [apply Z.eqb_eq in E; lia|].
    reflexivity.
  - assert (Hfull : (a * 64 + 64 <= length block)%nat).
    { assert (64 * (length block / 64) <= length block)%nat
        by (apply Nat.Div0.mul_div_le).
      lia. }
    rewrite (slice_length block (a * 64) 64 Hfull), Z.eqb_refl.
    cbn [negb].
    replace (Nat.min (S m) (length block / 64 - a))
      with (S (Nat.min m (length block / 64 - S a))) by lia.
    cbn [seq map filter]. rewrite IH.
    destruct (unpack_direntry (slice block (a * 64) 64)) as [i raw].
    unfold in_use. cbn [fst].
    destruct (i =? 0); reflexivity.
Qed.

(** [parse_dir_block] yields the records of the block in on-disk order,
    unused slots left out, each name decoded. *)
Lemma parse_dir_block_records (block : bytes) :
  parse_dir_block decode block
  = map (fun r => (fst r, entry_name decode (snd r)))
        (filter in_use (dir_records block)).
Proof.
  unfold parse_dir_block, range_step, dir_records.
  change (Z.to_nat DIRENTRY_SIZE) with 64%nat.
  rewrite parse_dir_loop_records.
  replace (Nat.min ((length block + 64 - 1) / 64) (length block / 64 - 0))
    with (length block / 64)%nat; [reflexivity|].
  assert (length block / 64 <= (length block + 64 - 1) / 64)%nat
    by (apply Nat.Div0.div_le_mono; lia).
  lia.
Qed.

(** ** Path resolution *)

Lemma resolve_loop_step (sb : SuperBlock) (name : str) (rest : list str)
    (current : Z) (f f1 f2 : file) (ino : Inode) (d0 : Z) (ds : list Z)
    (blk : bytes) :
  read_inode sb current f = (Ok ino, f1) ->
  is_dir ino = true ->
  direct ino = d0 :: ds ->
  d0 <> 0 ->
  read_block sb d0 f1 = (Ok blk, f2) ->
  resolve_loop decode sb (name :: rest) current f
  = match find_child name (parse_dir_block decode blk) with
    | None => (Raise PathNotFound, f2)
    | Some nxt => resolve_loop decode sb rest nxt f2
    end.
Proof.
  intros Hino Hdir Hd Hd0 Hblk.
  cbn [resolve_loop].
  rewrite (bind_ok _ _ _ _ _ Hino), Hdir. cbn [negb].
  unfold first_direct. rewrite Hd.
  unfold bind at 1, ret at 1.
  destruct (d0 =? 0) eqn:E; [apply Z.eqb_eq in E; contradiction|].
  rewrite (bind_ok _ _ _ _ _ Hblk).
  destruct (find_child name (parse_dir_block decode blk)); reflexivity.
Qed.

Lemma resolve_loop_app (sb : SuperBlock) (a b : list str) :
  forall current f,
    resolve_loop decode sb (a ++ b) current f
    = match resolve_loop decode sb a current f with
      | (Ok c, f') => resolve_loop decode sb b c f'
      | (Raise e, f') => (Raise e, f')
      end.
Proof.
  induction a as [|name a IH]; intros current f; [reflexivity|].
  cbn [app resolve_loop]. unfold bind.
  destruct (read_inode sb current f) as [[ino|e] f1]; [|reflexivity].
  destruct (negb (is_dir ino)); [reflexivity|].
  destruct (first_direct ino f1) as [[d0|e] f1']; [|reflexivity].
  destruct (d0 =? 0); [reflexivity|].
  destruct (read_block sb d0 f1') as [[blk|e] f2]; [|reflexivity].
  destruct (find_child name (parse_dir_block decode blk)) as [nxt|];
    [apply IH|reflexivity].
Qed.

(** C2 (as the code has it). On a path made of separators only,
    [resolve_path] touches neither the position nor the read log of the
    file; it returns [rootInodeId] for the empty path and for ["/"], and
    fails with the invalid-path error for two separators or more. *)
Theorem resolve_path_separators_only (sb : SuperBlock) (path : str)
    (f : file) :
  Forall (fun ch => ch = SEP) path ->
  resolve_path decode sb path f
  = (if (length path <=? 1)%nat then Ok (rootInodeId sb)
     else Raise InvalidPath, f).
Proof.
  intros Hsep. unfold resolve_path.
  destruct path as [|c0 [|c1 rest]].
  - reflexivity.
  - inversion Hsep; subst. reflexivity.
  - assert (E0 : str_eqb (c0 :: c1 :: rest) [] = false)
      by (apply str_eqb_neq; discriminate).
    assert (E1 : str_eqb (c0 :: c1 :: rest) [SEP] = false)
      by (apply str_eqb_neq; discriminate).
    rewrite E0, E1, (split_path_separators _ Hsep). reflexivity.
Qed.

(** C7. When a directory block holds several records with the same
    name, the lookup of that name selects the first of them in on-disk
    order that is in use (records whose inode identifier is 0 are passed
    over), and the walk goes on from the identifier of that record: it is
    the result when the component is the last one, and the inode read next
    when components follow. *)
Theorem resolve_first_match (sb : SuperBlock) (blk : bytes) (name : str)
    (k : nat) (cid : Z) (raw : bytes) :
  nth_error (dir_records blk) k = Some (cid, raw) ->
  cid <> 0 ->
  entry_name decode raw = name ->
  (forall j cj rj, (j < k)%nat ->
                   nth_error (dir_records blk) j = Some (cj, rj) ->
                   cj = 0 \/ entry_name decode rj <> name) ->
  find_child name (parse_dir_block decode blk) = Some cid
  /\ forall current f f1 f2 ino d0 ds,
       read_inode sb current f = (Ok ino, f1) ->
       is_dir ino = true ->
       direct ino = d0 :: ds ->
       d0 <> 0 ->
       read_block sb d0 f1 = (Ok blk, f2) ->
       resolve_loop decode sb [name] current f = (Ok cid, f2)
       /\ (forall path,
             split_path path = [name] -> current = rootInodeId sb ->
             resolve_path decode sb path f = (Ok cid, f2))
       /\ (forall rest,
             resolve_loop decode sb (name :: rest) current f
             = resolve_loop decode sb rest cid f2)
       /\ (forall next rest e f3,
             read_inode sb cid f2 = (Raise e, f3) ->
             resolve_loop decode sb (name :: next :: rest) current f
             = (Raise e, f3))
       /\ (forall next rest child f3,
             read_inode sb cid f2 = (Ok child, f3) ->
             is_dir child = false ->
             resolve_loop decode sb (name :: next :: rest) current f
             = (Raise NotADirectoryResolving, f3)).
Proof.
  intros Hk Hcid Hname Hbefore.
  assert (Hfind : find_child name (parse_dir_block decode blk) = Some cid).
  { rewrite parse_dir_block_records. unfold in_use.
    exact (find_child_first (entry_name decode) name (dir_records blk) k cid raw
             Hk Hcid Hname Hbefore). }
  split; [exact Hfind|].
  intros current f f1 f2 ino d0 ds Hino Hdir Hd Hd0 Hblk.
  assert (Hstep : forall rest,
             resolve_loop decode sb (name :: rest) current f
             = resolve_loop decode sb rest cid f2).
  { intros rest.
    rewrite (resolve_loop_step sb name rest current f f1 f2 ino d0 ds blk)
      by assumption.
    now rewrite Hfind. }
  split; [exact (Hstep [])|].
  split; [|split; [exact Hstep|split]].
  - intros path Hsplit ->. unfold resolve_path.
    assert (E0 : str_eqb path [] = false)
      by (apply str_eqb_neq; intros ->; discriminate).
    assert (E1 : str_eqb path [SEP] = false)
      by (apply str_eqb_neq; intros ->; discriminate).
    rewrite E0, E1, Hsplit. exact (Hstep []).
  - intros next rest e f3 Hnext. rewrite Hstep.
    cbn [resolve_loop]. now rewrite (bind_raise _ _ _ _ _ Hnext).
  - intros next rest child f3 Hnext Hfile. rewrite Hstep.
    cbn [resolve_loop]. rewrite (bind_ok _ _ _ _ _ Hnext), Hfile.
    reflexivity.
Qed.

(** C10. The identifier matched by the last component is returned as it
    stands in the directory entry: once the walk over the components
    before it has reached the directory [current], [resolve_path] reads
    the inode of [current] and its first block and returns, leaving the
    file as that block read left it. No condition bears on [child]: it
    may lie outside [0, inodeCount). *)
Theorem resolve_path_last_component (sb : SuperBlock) (path : str)
    (comps : list str) (last : str) (f f1 f2 f3 : file) (current : Z)
    (ino : Inode) (d0 : Z) (ds : list Z) (blk : bytes) (child : Z) :
  split_path path = comps ++ [last] ->
  resolve_loop decode sb comps (rootInodeId sb) f = (Ok current, f1) ->
  read_inode sb current f1 = (Ok ino, f2) ->
  is_dir ino = true ->
  direct ino = d0 :: ds ->
  d0 <> 0 ->
  read_block sb d0 f2 = (Ok blk, f3) ->
  find_child last (parse_dir_block decode blk) = Some child ->
  resolve_path decode sb path f = (Ok child, f3)
  /\ exists off,
       inode_offset sb current = Ok off
       /\ reads f3
          = reads f1 ++ [(off, INODE_SIZE);
                         (d0 * blockSize sb, blockSize sb)].
Proof.
  intros Hsplit Hwalk Hino Hdir Hd Hd0 Hblk Hfind.
  split.
  - unfold resolve_path.
    assert (E0 : str_eqb path [] = false).
    { apply str_eqb_neq. intros ->. destruct comps; discriminate. }
    assert (E1 : str_eqb path [SEP] = false).
    { apply str_eqb_neq. intros ->. destruct comps; discriminate. }
    rewrite E0, E1, Hsplit. cbn [orb].
    assert (Hgo : resolve_loop decode sb (comps ++ [last]) (rootInodeId sb) f
                  = (Ok child, f3)).
    { rewrite resolve_loop_app, Hwalk.
      rewrite (resolve_loop_step sb last [] current f1 f2 f3 ino d0 ds blk)
        by assumption.
      now rewrite Hfind. }
    destruct (comps ++ [last]) eqn:E; [destruct comps; discriminate|].
    exact Hgo.
  - destruct (read_inode_inv _ _ _ _ _ Hino) as [_ [off [Hoff ->]]].
    exists off. split; [exact Hoff|].
    apply read_block_inv in Hblk;
      [|eapply inode_offset_ok_blockSize; eauto].
    destruct Hblk as [_ [_ ->]].
    unfold after_read. cbn [reads]. now rewrite <- app_assoc.
Qed.

End DirectoryProperties.

Lemma resolve_path_separators_only_witness :
  resolve_path Fixture.decode_ascii Fixture.sb (lit "/") Fixture.f
  = (Ok 1, Fixture.f)
  /\ resolve_path Fixture.decode_ascii Fixture.sb (lit "///") Fixture.f
     = (Raise InvalidPath, Fixture.f).
Proof.
  split.
  - apply (resolve_path_separators_only Fixture.decode_ascii Fixture.sb
             (lit "/") Fixture.f).
    repeat constructor.
  - apply (resolve_path_separators_only Fixture.decode_ascii Fixture.sb
             (lit "///") Fixture.f).
    repeat constructor.
Defined.

(** The path ["//"] consists of separators only, and [resolve_path] does
    not return the root for it. *)
Lemma resolve_path_double_separator :
  Forall (fun ch => ch = SEP) (lit "//")
  /\ fst (resolve_path Fixture.decode_ascii Fixture.sb (lit "//") Fixture.f)
     = Raise InvalidPath
  /\ fst (resolve_path Fixture.decode_ascii Fixture.sb (lit "//") Fixture.f)
     <> Ok (rootInodeId Fixture.sb).
Proof.
  split; [repeat constructor|].
  split; [reflexivity|].
  vm_compute. discriminate.
Defined.

Lemma resolve_first_match_witness :
  find_child (lit "a.txt")
    (parse_dir_block Fixture.decode_ascii Fixture.root_dir_block)
  = Some 2
  /\ resolve_path Fixture.decode_ascii Fixture.sb (lit "/a.txt") Fixture.f
     = (Ok 2,
        snd (read_block Fixture.sb 3
               (snd (read_inode Fixture.sb 1 Fixture.f))))
  /\ fst (resolve_loop Fixture.decode_ascii Fixture.sb
            [lit "a.txt"; lit "x"] 1 Fixture.f)
     = Raise NotADirectoryResolving.
Proof.
  assert (Hino : read_inode Fixture.sb 1 Fixture.f
                 = (Ok (Fixture.dir_inode 1 [3]),
                    snd (read_inode Fixture.sb 1 Fixture.f)))
    by (vm_compute; reflexivity).
  assert (Hblk : read_block Fixture.sb 3
                   (snd (read_inode Fixture.sb 1 Fixture.f))
                 = (Ok Fixture.root_dir_block,
                    snd (read_block Fixture.sb 3
                           (snd (read_inode Fixture.sb 1 Fixture.f)))))
    by (vm_compute; reflexivity).
  assert (Hnext : read_inode Fixture.sb 2
                    (snd (read_block Fixture.sb 3
                            (snd (read_inode Fixture.sb 1 Fixture.f))))
                  = (Ok (Fixture.file_inode 2 5 [4]),
                     snd (read_inode Fixture.sb 2
                            (snd (read_block Fixture.sb 3
                                    (snd (read_inode Fixture.sb 1
                                            Fixture.f)))))))
    by (vm_compute; reflexivity).
  destruct (resolve_first_match Fixture.decode_ascii Fixture.sb
              Fixture.root_dir_block (lit "a.txt") 1 2
              (Fixture.pad 60 (Fixture.ascii_bytes "a.txt")))
    as [Hfind Hwalk].
  - reflexivity.
  - discriminate.
  - reflexivity.
  - intros j cj rj Hj Hn.
    destruct j as [|j]; [|lia].
    vm_compute in Hn. inversion Hn. left; reflexivity.
  - destruct (Hwalk 1 Fixture.f _ _ _ 3 (repeat 0 7) Hino eq_refl eq_refl
                ltac:(discriminate) Hblk)
      as (_ & Hpath & _ & _ & Hfile).
    split; [exact Hfind|]. split.
    + apply Hpath; reflexivity.
    + rewrite (Hfile (lit "x") [] _ _ Hnext eq_refl). reflexivity.
Defined.

Lemma resolve_path_last_component_witness :
  resolve_path Fixture.decode_ascii Fixture.sb (lit "/sub/lost") Fixture.f
  = (Ok 99,
     after_read
       (after_read
          (snd (resolve_path Fixture.decode_ascii Fixture.sb (lit "/sub")
                  Fixture.f))
          (1 * 512 + 4 * 44) 44)
       (6 * 512) 512)
  /\ inodeCount Fixture.sb <= 99.
Proof.
  split; [|by_evaluation].
  refine (proj1 (resolve_path_last_component Fixture.decode_ascii Fixture.sb
                   (lit "/sub/lost") [lit "sub"] (lit "lost")
                   Fixture.f _ _ _ 4
                   (Fixture.dir_inode 4 [6]) 6 (repeat 0 7)
                   Fixture.sub_dir_block 99
                   _ _ _ _ _ _ _ _)).
  - reflexivity.
  - reflexivity.
  - vm_compute. reflexivity.
  - reflexivity.
  - reflexivity.
  - discriminate.
  - vm_compute. reflexivity.
  - reflexivity.
Defined.

(** ** Directory listing *)

Lemma list_dir_loop_ok (sb : SuperBlock) (entries : list (Z * str)) :
  forall out f,
    Forall (child_readable sb (image f)) entries ->
    exists f',
      list_dir_loop sb entries out f
      = (Ok (out ++ map (listed sb (image f)) entries), f').
Proof.
  induction entries as [|[cid name] rest IH]; intros out f Hall.
  - exists f. simpl. now rewrite app_nil_r.
  - inversion Hall as [|? ? Hc Hrest]; subst.
    unfold child_readable in Hc. cbn [fst] in Hc.
    destruct (inode_at sb (image f) cid) as [child|] eqn:E; [|contradiction].
    destruct (read_inode_at _ _ _ _ E) as [off [_ Hr]].
    cbn [list_dir_loop]. rewrite (bind_ok _ _ _ _ _ Hr).
    destruct (IH (out ++ [name ++ (if is_dir child then [SEP] else [])])
                (after_read f off INODE_SIZE) Hrest) as [f' Hf'].
    exists f'. rewrite Hf'. cbn [after_read image map].
    unfold listed at 2, is_dir_at. cbn [fst snd]. rewrite E.
    now rewrite <- app_assoc.
Qed.

Lemma list_dir_loop_fail (sb : SuperBlock) (entries : list (Z * str)) :
  forall out f,
    ~ Forall (child_readable sb (image f)) entries ->
    exists e f', list_dir_loop sb entries out f = (Raise e, f').
Proof.
  induction entries as [|[cid name] rest IH]; intros out f Hn.
  - exfalso. apply Hn. constructor.
  - cbn [list_dir_loop].
    destruct (inode_at sb (image f) cid) as [child|] eqn:E.
    + destruct (read_inode_at _ _ _ _ E) as [off [_ Hr]].
      rewrite (bind_ok _ _ _ _ _ Hr).
      apply IH. cbn [after_read image]. intros Hrest. apply Hn.
      constructor; [|exact Hrest].
      unfold child_readable. cbn [fst]. congruence.
    + destruct (read_inode_missing _ _ _ E) as [f' [Hr _]].
      exists (inode_failure sb cid), f'.
      now rewrite (bind_raise _ _ _ _ _ Hr).
Qed.

(** The loop of [list_dir] stops at the first entry whose inode cannot be
    read, with the failure of that read. *)
Lemma list_dir_loop_first_failure (sb : SuperBlock) (pre : list (Z * str)) :
  forall c post out f,
    Forall (child_readable sb (image f)) pre ->
    ~ child_readable sb (image f) c ->
    exists f',
      list_dir_loop sb (pre ++ c :: post) out f
      = (Raise (inode_failure sb (fst c)), f').
Proof.
  induction pre as [|[cid name] pre IH]; intros c post out f Hpre Hc.
  - destruct c as [cid name]. cbn [app list_dir_loop fst].
    unfold child_readable in Hc. cbn [fst] in Hc.
    destruct (inode_at sb (image f) cid) as [child|] eqn:E;
      [exfalso; apply Hc; discriminate|].
    destruct (read_inode_missing _ _ _ E) as [f' [Hr _]].
    exists f'. now rewrite (bind_raise _ _ _ _ _ Hr).
  - inversion Hpre as [|? ? Hcid Hrest]; subst.
    unfold child_readable in Hcid. cbn [fst] in Hcid.
    destruct (inode_at sb (image f) cid) as [child|] eqn:E; [|contradiction].
    destruct (read_inode_at _ _ _ _ E) as [off [_ Hr]].
    cbn [app list_dir_loop]. rewrite (bind_ok _ _ _ _ _ Hr).
    apply IH; assumption.
Qed.

Section ListingProperties.

Variable decode : bytes -> str.

Lemma resolve_loop_image (sb : SuperBlock) (comps : list str) :
  forall current f,
    image (snd (resolve_loop decode sb comps current f)) = image f.
Proof.
  induction comps as [|name rest IH]; intros current f; [reflexivity|].
  cbn [resolve_loop]. unfold bind.
  pose proof (read_inode_image sb current f) as H1.
  destruct (read_inode sb current f) as [[ino|e] f1]; simpl in H1;
    [|exact H1].
  destruct (negb (is_dir ino)); [exact H1|].
  unfold first_direct.
  destruct (direct ino) as [|d0 ds]; [exact H1|].
  unfold ret at 1.
  destruct (d0 =? 0); [exact H1|].
  pose proof (read_block_image sb d0 f1) as H2.
  destruct (read_block sb d0 f1) as [[blk|e] f2]; simpl in H2;
    [|simpl; congruence].
  destruct (find_child name (parse_dir_block decode blk)) as [nxt|];
    [|simpl; congruence].
  rewrite IH. congruence.
Qed.

Lemma resolve_path_image (sb : SuperBlock) (path : str) (f : file) :
  image (snd (resolve_path decode sb path f)) = image f.
Proof.
  unfold resolve_path.
  destruct (_ || _); [reflexivity|].
  destruct (split_path path); [reflexivity|].
  apply resolve_loop_image.
Qed.

(** C8 (as the code has it). Once the path resolves to an inode that can
    be read, [list_dir] fails with the not-a-directory error when it is not
    a directory, returns no name when its first direct block is 0, and
    otherwise, when that block and the inode of every entry in use can be
    read, returns the names of those entries in on-disk order, each with a
    trailing ["/"] when the child is a directory. When the block cannot be
    read, [list_dir] fails with the error of that block read; when it can
    but the inode of some entry in use cannot, [list_dir] fails with the
    error of the read of the first such inode. *)
Theorem list_dir_spec (sb : SuperBlock) (path : str) (f f1 f2 : file)
    (inode_id : Z) (ino : Inode) :
  resolve_path decode sb path f = (Ok inode_id, f1) ->
  read_inode sb inode_id f1 = (Ok ino, f2) ->
  let r := fst (list_dir decode sb path f) in
  let d0 := hd 0 (direct ino) in
  let all_readable :=
    block_readable sb (image f) d0
    /\ Forall (child_readable sb (image f)) (entries_of sb (image f) ino) in
  (is_dir ino = false -> r = Raise NotADirectory)
  /\ (is_dir ino = true -> d0 = 0 -> r = Ok [])
  /\ (is_dir ino = true -> d0 <> 0 -> all_readable ->
      r = Ok (map (fun e => listed sb (image f)
                              (fst e, entry_name decode (snd e)))
                  (entries_of sb (image f) ino)))
  /\ (is_dir ino = true -> d0 <> 0 -> ~ all_readable ->
      exists e, r = Raise e)
  /\ (is_dir ino = true -> d0 <> 0 ->
      ~ block_readable sb (image f) d0 ->
      exists e, fst (read_block sb d0 f) = Raise e /\ r = Raise e)
  /\ (is_dir ino = true -> d0 <> 0 ->
      block_readable sb (image f) d0 ->
      forall pre c post,
        entries_of sb (image f) ino = pre ++ c :: post ->
        Forall (child_readable sb (image f)) pre ->
        ~ child_readable sb (image f) c ->
        exists e, fst (read_inode sb (fst c) f) = Raise e /\ r = Raise e).
Proof.
  intros Hres Hino r d0 all_readable.
  assert (Himg1 : image f1 = image f).
  { pose proof (resolve_path_image sb path f) as H. now rewrite Hres in H. }
  assert (Himg2 : image f2 = image f).
  { pose proof (read_inode_image sb inode_id f1) as H.
    rewrite Hino in H. simpl in H. congruence. }
  destruct (read_inode_inv _ _ _ _ _ Hino) as [Hat _].
  destruct (inode_at_shape _ _ _ _ Hat) as [Hbs [_ [d [ds Hd]]]].
  assert (Hstart : list_dir decode sb path f
                   = (if negb (is_dir ino) then raise NotADirectory
                      else if d =? 0 then ret []
                      else blk <- read_block sb d ;;
                           list_dir_loop sb (parse_dir_block decode blk) [])
                       f2).
  { unfold list_dir.
    rewrite (bind_ok _ _ _ _ _ Hres), (bind_ok _ _ _ _ _ Hino).
    destruct (negb (is_dir ino)); [reflexivity|].
    unfold first_direct. rewrite Hd. reflexivity. }
  subst r d0 all_readable. rewrite Hstart. clear Hstart.
  unfold entries_of. rewrite Hd. cbn [hd].
  assert (Hdec : block_readable sb (image f) d
                 \/ ~ block_readable sb (image f) d)
    by (unfold block_readable; lia).
  assert (Hunread : is_dir ino = true -> d <> 0 ->
            ~ block_readable sb (image f) d ->
            exists e,
              fst (read_block sb d f) = Raise e
              /\ fst ((if negb (is_dir ino) then raise NotADirectory
                       else if d =? 0 then ret []
                       else blk <- read_block sb d ;;
                            list_dir_loop sb (parse_dir_block decode blk) [])
                        f2) = Raise e).
  { intros -> Hnz Hblk.
    cbn [negb]. destruct (d =? 0) eqn:E; [apply Z.eqb_eq in E; lia|].
    destruct (read_block_unreadable sb d f Hbs Hblk) as [g [Hg _]].
    rewrite <- Himg2 in Hblk.
    destruct (read_block_unreadable sb d f2 Hbs Hblk) as [f' [Hr _]].
    exists (block_failure sb d). rewrite Hg.
    now rewrite (bind_raise _ _ _ _ _ Hr). }
  split; [|split; [|split; [|split; [|split]]]].
  - intros ->. reflexivity.
  - intros -> ->. reflexivity.
  - intros -> Hnz [Hblk Hall].
    cbn [negb]. destruct (d =? 0) eqn:E; [apply Z.eqb_eq in E; lia|].
    rewrite <- Himg2 in Hblk.
    pose proof (read_block_readable sb d f2 ltac:(lia) Hblk) as Hr.
    rewrite (bind_ok _ _ _ _ _ Hr), Himg2, parse_dir_block_records.
    destruct (list_dir_loop_ok sb
                (map (fun r => (fst r, entry_name decode (snd r)))
                   (filter in_use (dir_records (block_bytes sb (image f) d))))
                [] (after_read f2 (d * blockSize sb) (blockSize sb)))
      as [f' Hf'].
    { cbn [after_read image]. rewrite Himg2.
      apply Forall_map. exact Hall. }
    rewrite Hf'. cbn [fst app after_read image]. rewrite Himg2, map_map.
    reflexivity.
  - intros Hdir Hnz Hnot.
    destruct Hdec as [Hblk|Hblk].
    + subst. rewrite Hdir.
      cbn [negb]. destruct (d =? 0) eqn:E; [apply Z.eqb_eq in E; lia|].
      rewrite <- Himg2 in Hblk.
      pose proof (read_block_readable sb d f2 ltac:(lia) Hblk) as Hr.
      rewrite (bind_ok _ _ _ _ _ Hr), Himg2, parse_dir_block_records.
      destruct (list_dir_loop_fail sb
                  (map (fun r => (fst r, entry_name decode (snd r)))
                     (filter in_use
                        (dir_records (block_bytes sb (image f) d))))
                  [] (after_read f2 (d * blockSize sb) (blockSize sb)))
        as [e [f' Hf']].
      { cbn [after_read image]. rewrite Himg2. intros Hall. apply Hnot.
        split; [now rewrite <- Himg2|].
        apply (proj1 (Forall_map _ _ _)) in Hall. exact Hall. }
      exists e. now rewrite Hf'.
    + destruct (Hunread Hdir Hnz Hblk) as [e [_ He]]. eauto.
  - exact Hunread.
  - intros -> Hnz Hblk pre c post Hent Hpre Hc.
    cbn [negb]. destruct (d =? 0) eqn:E; [apply Z.eqb_eq in E; lia|].
    rewrite <- Himg2 in Hblk.
    pose proof (read_block_readable sb d f2 ltac:(lia) Hblk) as Hr.
    rewrite (bind_ok _ _ _ _ _ Hr), Himg2, parse_dir_block_records.
    rewrite Hent, map_app. cbn [map].
    destruct (list_dir_loop_first_failure sb
                (map (fun r => (fst r, entry_name decode (snd r))) pre)
                (fst c, entry_name decode (snd c))
                (map (fun r => (fst r, entry_name decode (snd r))) post)
                [] (after_read f2 (d * blockSize sb) (blockSize sb)))
      as [f' Hf'].
    { cbn [after_read image]. rewrite Himg2. apply Forall_map. exact Hpre. }
    { cbn [after_read image]. rewrite Himg2. exact Hc. }
    assert (Hnone : inode_at sb (image f) (fst c) = None).
    { unfold child_readable in Hc.
      destruct (inode_at sb (image f) (fst c)); [|reflexivity].
      exfalso. apply Hc. discriminate. }
    destruct (read_inode_missing _ _ _ Hnone) as [g [Hg _]].
    exists (inode_failure sb (fst c)). rewrite Hg, Hf'. auto.
Qed.

End ListingProperties.

Lemma list_dir_spec_witness :
  fst (list_dir Fixture.decode_ascii Fixture.sb (lit "/") Fixture.f)
  = Ok [lit "a.txt"; lit "a.txt"; lit "sub/"; lit "big"; lit "two";
        lit "void/"; lit "bad"]
  /\ exists e,
       fst (read_inode Fixture.sb 99 Fixture.f) = Raise e
       /\ fst (list_dir Fixture.decode_ascii Fixture.sb (lit "/sub")
                 Fixture.f) = Raise e.
Proof.
  split.
  - assert (Hres : resolve_path Fixture.decode_ascii Fixture.sb (lit "/")
                     Fixture.f = (Ok 1, Fixture.f)) by reflexivity.
    assert (Hino : read_inode Fixture.sb 1 Fixture.f
                   = (Ok (Fixture.dir_inode 1 [3]),
                      after_read Fixture.f (1 * 512 + 1 * 44) 44))
      by (vm_compute; reflexivity).
    pose proof (list_dir_spec Fixture.decode_ascii Fixture.sb (lit "/")
                  Fixture.f Fixture.f _ 1 _ Hres Hino) as H.
    cbv zeta in H. destruct H as (_ & _ & H & _).
    rewrite H.
    + vm_compute. reflexivity.
    + reflexivity.
    + discriminate.
    + split; [by_evaluation|].
      match goal with
      | |- Forall ?P ?l =>
          let l' := eval vm_compute in l in change (Forall P l')
      end.
      repeat constructor; vm_compute; discriminate.
  - assert (Hres : resolve_path Fixture.decode_ascii Fixture.sb (lit "/sub")
                     Fixture.f
                   = (Ok 4, snd (resolve_path Fixture.decode_ascii
                                   Fixture.sb (lit "/sub") Fixture.f)))
      by (vm_compute; reflexivity).
    assert (Hino : read_inode Fixture.sb 4
                     (snd (resolve_path Fixture.decode_ascii Fixture.sb
                             (lit "/sub") Fixture.f))
                   = (Ok (Fixture.dir_inode 4 [6]),
                      snd (read_inode Fixture.sb 4
                             (snd (resolve_path Fixture.decode_ascii
                                     Fixture.sb (lit "/sub") Fixture.f)))))
      by (vm_compute; reflexivity).
    pose proof (list_dir_spec Fixture.decode_ascii Fixture.sb (lit "/sub")
                  Fixture.f _ _ 4 _ Hres Hino) as H.
    cbv zeta in H. destruct H as (_ & _ & _ & _ & _ & H).
    destruct (H eq_refl ltac:(discriminate) ltac:(by_evaluation)
                [] (99, Fixture.pad 60 (Fixture.ascii_bytes "lost"))
                [(2, Fixture.pad 60 (Fixture.ascii_bytes "link"))])
      as [e [He Hr]].
    + vm_compute. reflexivity.
    + constructor.
    + intros Hc. apply Hc. vm_compute. reflexivity.
    + exists e. split; [exact He|exact Hr].
Defined.

(** ["/sub"] resolves to the directory inode 4, whose first block is
    block 6, and yet [list_dir] returns no listing: the first entry of
    that block names inode 99, beyond [inodeCount]. *)
Lemma list_dir_dangling_entry :
  fst (resolve_path Fixture.decode_ascii Fixture.sb (lit "/sub") Fixture.f)
  = Ok 4
  /\ inode_at Fixture.sb Fixture.img 4 = Some (Fixture.dir_inode 4 [6])
  /\ fst (list_dir Fixture.decode_ascii Fixture.sb (lit "/sub") Fixture.f)
     = Raise InodeOutOfRange
  /\ forall names,
       fst (list_dir Fixture.decode_ascii Fixture.sb (lit "/sub") Fixture.f)
       <> Ok names.
Proof.
  split; [reflexivity|].
  split; [vm_compute; reflexivity|].
  split; [vm_compute; reflexivity|].
  intros names. vm_compute. discriminate.
Defined.

(** ** File content *)

Lemma block_readable_dec (sb : SuperBlock) (img : bytes) (b : Z) :
  {block_readable sb img b} + {~ block_readable sb img b}.
Proof.
  unfold block_readable.
  destruct (Z_le_dec 0 b); [|right; lia].
  destruct (Z_lt_dec b (totalBlocks sb)); [|right; lia].
  destruct (Z_lt_dec (b * blockSize sb) MAX_OFFSET); [|right; lia].
  destruct (Z_le_dec (b * blockSize sb + blockSize sb)
              (Z.of_nat (length img))); [left; lia|right; lia].
Qed.

Lemma block_bytes_length (sb : SuperBlock) (img : bytes) (b : Z) :
  0 < blockSize sb ->
  block_readable sb img b ->
  Z.of_nat (length (block_bytes sb img b)) = blockSize sb.
Proof.
  intros Hbs [[Hb0 _] [_ Hlen]].
  unfold block_bytes. rewrite slice_length; nia.
Qed.

Lemma visited_blocks_all (bsz : Z) (blocks : list Z) :
  forall remaining,
    0 < bsz ->
    bsz * Z.of_nat (length (leading_nonzero blocks)) < remaining ->
    visited_blocks bsz blocks remaining = leading_nonzero blocks.
Proof.
  induction blocks as [|b rest IH]; intros remaining Hbs Hlt;
    [reflexivity|].
  cbn [visited_blocks leading_nonzero] in *.
  destruct (b =? 0) eqn:Eb.
  - now rewrite orb_true_r.
  - cbn [length] in Hlt.
    destruct (remaining <=? 0) eqn:Er; [apply Z.leb_le in Er; nia|].
    cbn [orb]. f_equal. apply IH; [exact Hbs|].
    rewrite Z.min_r by nia. nia.
Qed.

Lemma read_file_loop_ok (sb : SuperBlock) (blocks : list Z) :
  forall remaining chunks f,
    0 < blockSize sb ->
    0 <= remaining ->
    Forall (block_readable sb (image f))
      (visited_blocks (blockSize sb) blocks remaining) ->
    exists f',
      read_file_loop sb blocks remaining chunks f
      = (Ok (Z.max 0 (remaining
                      - blockSize sb
                        * Z.of_nat (length (leading_nonzero blocks))),
             chunks ++ file_chunks sb (image f) blocks remaining), f').
Proof.
  induction blocks as [|b rest IH]; intros remaining chunks f Hbs Hrem Hall.
  - exists f. cbn [read_file_loop file_chunks leading_nonzero length].
    rewrite app_nil_r. unfold ret. f_equal. f_equal. f_equal. lia.
  - cbn [read_file_loop visited_blocks file_chunks leading_nonzero] in *.
    destruct (remaining <=? 0) eqn:Er.
    + apply Z.leb_le in Er. exists f. cbn [orb]. rewrite app_nil_r.
      unfold ret. f_equal. f_equal. f_equal.
      destruct (b =? 0); cbn [length]; nia.
    + apply Z.leb_gt in Er. cbn [orb] in *.
      destruct (b =? 0) eqn:Eb.
      * exists f. rewrite app_nil_r. unfold ret. f_equal. f_equal. f_equal.
        cbn [length]. lia.
      * inversion Hall as [|? ? Hb Hrest]; subst.
        pose proof (read_block_readable sb b f ltac:(lia) Hb) as Hr.
        rewrite (bind_ok _ _ _ _ _ Hr).
        destruct (IH (remaining - Z.min remaining (blockSize sb))
                    (chunks ++ [firstn (Z.to_nat
                                          (Z.min remaining (blockSize sb)))
                                  (block_bytes sb (image f) b)])
                    (after_read f (b * blockSize sb) (blockSize sb))
                    Hbs ltac:(lia) Hrest) as [f' Hf'].
        exists f'. rewrite Hf'. cbn [after_read image length].
        rewrite <- app_assoc. cbn [app]. f_equal. f_equal. f_equal.
        destruct (Z.min_spec remaining (blockSize sb)) as [[? ->]|[? ->]];
          nia.
Qed.

Lemma read_file_loop_fail (sb : SuperBlock) (blocks : list Z) :
  forall remaining chunks f,
    0 < blockSize sb ->
    ~ Forall (block_readable sb (image f))
        (visited_blocks (blockSize sb) blocks remaining) ->
    exists e f',
      read_file_loop sb blocks remaining chunks f = (Raise e, f')
      /\ (e = BlockOutOfRange \/ e = SeekError \/ e = UnexpectedEOF).
Proof.
  induction blocks as [|b rest IH]; intros remaining chunks f Hbs Hn.
  - exfalso. apply Hn. constructor.
  - cbn [read_file_loop visited_blocks] in *.
    destruct (remaining <=? 0); [exfalso; apply Hn; constructor|].
    destruct (b =? 0); [exfalso; apply Hn; constructor|].
    cbn [orb] in Hn.
    destruct (block_readable_dec sb (image f) b) as [Hb|Hb].
    + pose proof (read_block_readable sb b f ltac:(lia) Hb) as Hr.
      rewrite (bind_ok _ _ _ _ _ Hr).
      apply IH; [exact Hbs|].
      cbn [after_read image]. intros Hrest. apply Hn.
      constructor; assumption.
    + destruct (read_block_unreadable sb b f Hbs Hb) as [f' [Hr _]].
      exists (block_failure sb b), f'.
      rewrite (bind_raise _ _ _ _ _ Hr). split; [reflexivity|].
      unfold block_failure.
      destruct (_ || _); [auto|]. destruct (_ <=? _); auto.
Qed.

(** The loop of [read_file_content] stops at the first visited block that
    cannot be read, with the failure of that read. *)
Lemma read_file_loop_first_failure (sb : SuperBlock) (blocks : list Z) :
  forall remaining chunks f pre b post,
    0 < blockSize sb ->
    visited_blocks (blockSize sb) blocks remaining = pre ++ b :: post ->
    Forall (block_readable sb (image f)) pre ->
    ~ block_readable sb (image f) b ->
    exists f',
      read_file_loop sb blocks remaining chunks f
      = (Raise (block_failure sb b), f').
Proof.
  induction blocks as [|x rest IH];
    intros remaining chunks f pre b post Hbs Hvis Hpre Hb.
  - destruct pre; discriminate.
  - cbn [read_file_loop visited_blocks] in *.
    destruct (remaining <=? 0); [destruct pre; discriminate|].
    destruct (x =? 0); [destruct pre; discriminate|].
    cbn [orb] in Hvis.
    destruct pre as [|p pre].
    + cbn [app] in Hvis. inversion Hvis; subst x.
      destruct (read_block_unreadable sb b f Hbs Hb) as [f' [Hr _]].
      exists f'. now rewrite (bind_raise _ _ _ _ _ Hr).
    + cbn [app] in Hvis. inversion Hvis; subst x.
      inversion Hpre as [|? ? Hp Hrest]; subst.
      pose proof (read_block_readable sb p f ltac:(lia) Hp) as Hr.
      rewrite (bind_ok _ _ _ _ _ Hr).
      eapply IH; eauto.
Qed.

Lemma file_chunks_length (sb : SuperBlock) (img : bytes) (blocks : list Z) :
  forall remaining,
    0 < blockSize sb ->
    0 <= remaining ->
    Forall (block_readable sb img)
      (visited_blocks (blockSize sb) blocks remaining) ->
    Z.of_nat (length (concat (file_chunks sb img blocks remaining)))
    = remaining
      - Z.max 0 (remaining
                 - blockSize sb
                   * Z.of_nat (length (leading_nonzero blocks))).
Proof.
  induction blocks as [|b rest IH]; intros remaining Hbs Hrem Hall.
  - cbn [file_chunks concat leading_nonzero length]. lia.
  - cbn [visited_blocks file_chunks leading_nonzero] in *.
    destruct (remaining <=? 0) eqn:Er.
    + apply Z.leb_le in Er. cbn [orb concat length].
      destruct (b =? 0); cbn [length]; nia.
    + apply Z.leb_gt in Er. cbn [orb] in *.
      destruct (b =? 0) eqn:Eb; [cbn [concat length]; lia|].
      inversion Hall as [|? ? Hb Hrest]; subst.
      cbn [concat length]. rewrite length_app, Nat2Z.inj_add.
      rewrite (IH (remaining - Z.min remaining (blockSize sb)) Hbs
                 ltac:(lia) Hrest).
      rewrite length_firstn.
      pose proof (block_bytes_length sb img b Hbs Hb) as Hlen.
      destruct (Z.min_spec remaining (blockSize sb)) as [[? E]|[? E]];
        rewrite E in *; nia.
Qed.

Lemma file_chunks_nothing (sb : SuperBlock) (img : bytes) (blocks : list Z)
    (remaining : Z) :
  remaining <= 0 -> file_chunks sb img blocks remaining = [].
Proof.
  intros H. destruct blocks as [|b rest]; [reflexivity|].
  cbn [file_chunks].
  destruct (remaining <=? 0) eqn:E; [reflexivity|].
  apply Z.leb_gt in E. lia.
Qed.

(** Within the supply, the chunks make up the first [remaining] bytes of
    the leading non-zero direct blocks laid end to end. *)
Lemma file_chunks_prefix (sb : SuperBlock) (img : bytes) (blocks : list Z) :
  forall remaining,
    0 < blockSize sb ->
    0 <= remaining ->
    remaining
    <= blockSize sb * Z.of_nat (length (leading_nonzero blocks)) ->
    Forall (block_readable sb img)
      (visited_blocks (blockSize sb) blocks remaining) ->
    concat (file_chunks sb img blocks remaining)
    = firstn (Z.to_nat remaining)
        (concat (map (block_bytes sb img) (leading_nonzero blocks))).
Proof.
  induction blocks as [|b rest IH]; intros remaining Hbs Hrem Hsup Hall.
  - cbn. now rewrite firstn_nil.
  - cbn [visited_blocks file_chunks leading_nonzero] in *.
    destruct (remaining <=? 0) eqn:Er.
    + apply Z.leb_le in Er. replace remaining with 0 by lia.
      reflexivity.
    + apply Z.leb_gt in Er. cbn [orb] in *.
      destruct (b =? 0) eqn:Eb; [cbn [length] in Hsup; lia|].
      inversion Hall as [|? ? Hb Hrest]; subst.
      pose proof (block_bytes_length sb img b Hbs Hb) as Hlen.
      cbn [length map concat] in *.
      rewrite firstn_app.
      destruct (Z_le_gt_dec remaining (blockSize sb)) as [Hle|Hgt].
      * rewrite Z.min_l by lia. rewrite Z.sub_diag.
        rewrite file_chunks_nothing by lia.
        replace (Z.to_nat remaining - length (block_bytes sb img b))%nat
          with 0%nat by lia.
        reflexivity.
      * rewrite Z.min_r in * by lia.
        rewrite (IH (remaining - blockSize sb) Hbs ltac:(lia) ltac:(lia)
                   Hrest).
        rewrite (firstn_all2 (n := Z.to_nat (blockSize sb))) by lia.
        rewrite (firstn_all2 (n := Z.to_nat remaining)) by lia.
        f_equal. f_equal. lia.
Qed.

Section FileProperties.

Variable decode : bytes -> str.

(** C3 (as the code has it). For a path that resolves to a readable file
    inode: a successful [read_file_content] returns as many bytes as the
    inode's size, the concatenation of the [min(remaining, blockSize)]-byte
    prefixes of the visited direct blocks in the order of the array, that
    is the first [size] bytes of the leading non-zero blocks; it
    fails with the truncated-file error exactly when the size exceeds what
    the leading non-zero direct blocks supply and all of those blocks can be
    read; it succeeds when the size is within the supply and the visited
    blocks can be read; and when a visited block cannot be read it fails
    with the error of the read of the first such block (the range error,
    the refusal of the seek or the short read). *)
Theorem read_file_content_spec (sb : SuperBlock) (path : str)
    (f f1 f2 : file) (inode_id : Z) (ino : Inode) :
  resolve_path decode sb path f = (Ok inode_id, f1) ->
  read_inode sb inode_id f1 = (Ok ino, f2) ->
  is_dir ino = false ->
  let r := fst (read_file_content decode sb path f) in
  let visited := visited_blocks (blockSize sb) (direct ino) (size ino) in
  (forall data, r = Ok data ->
     Z.of_nat (length data) = size ino
     /\ data = concat (file_chunks sb (image f) (direct ino) (size ino))
     /\ data = firstn (Z.to_nat (size ino))
                 (concat (map (block_bytes sb (image f))
                            (leading_nonzero (direct ino)))))
  /\ (r = Raise TruncatedFile <->
      supply sb ino < size ino
      /\ Forall (block_readable sb (image f)) (leading_nonzero (direct ino)))
  /\ (size ino <= supply sb ino ->
      Forall (block_readable sb (image f)) visited ->
      exists data, r = Ok data)
  /\ (~ Forall (block_readable sb (image f)) visited ->
      r = Raise BlockOutOfRange \/ r = Raise SeekError
      \/ r = Raise UnexpectedEOF)
  /\ (forall pre b post,
        visited = pre ++ b :: post ->
        Forall (block_readable sb (image f)) pre ->
        ~ block_readable sb (image f) b ->
        exists e, fst (read_block sb b f) = Raise e /\ r = Raise e).
Proof.
  intros Hres Hino Hfile r visited.
  assert (Himg2 : image f2 = image f).
  { pose proof (resolve_path_image decode sb path f) as H1.
    pose proof (read_inode_image sb inode_id f1) as H2.
    rewrite Hres in H1. rewrite Hino in H2. simpl in *. congruence. }
  destruct (read_inode_inv _ _ _ _ _ Hino) as [Hat _].
  destruct (inode_at_shape _ _ _ _ Hat) as [Hbs [Hsize _]].
  assert (Hstart : read_file_content decode sb path f
                   = ('(remaining, chunks) <-
                        read_file_loop sb (direct ino) (size ino) [] ;;
                      if negb (remaining =? 0) then raise TruncatedFile
                      else ret (concat chunks)) f2).
  { unfold read_file_content.
    rewrite (bind_ok _ _ _ _ _ Hres), (bind_ok _ _ _ _ _ Hino), Hfile.
    reflexivity. }
  subst r. rewrite Hstart. clear Hstart.
  assert (Hfirst : forall pre b post,
             visited = pre ++ b :: post ->
             Forall (block_readable sb (image f)) pre ->
             ~ block_readable sb (image f) b ->
             exists e,
               fst (read_block sb b f) = Raise e
               /\ fst (('(remaining, chunks) <-
                          read_file_loop sb (direct ino) (size ino) [] ;;
                        if negb (remaining =? 0) then raise TruncatedFile
                        else ret (concat chunks)) f2) = Raise e).
  { intros pre b post Hvis Hpre Hb.
    destruct (read_block_unreadable sb b f Hbs Hb) as [g [Hg _]].
    rewrite <- Himg2 in Hpre, Hb.
    destruct (read_file_loop_first_failure sb (direct ino) (size ino) [] f2
                pre b post Hbs Hvis Hpre Hb) as [f' Hloop].
    exists (block_failure sb b). rewrite Hg.
    now rewrite (bind_raise _ _ _ _ _ Hloop). }
  refine ((fun H => conj (proj1 H) (conj (proj1 (proj2 H))
            (conj (proj1 (proj2 (proj2 H)))
               (conj (proj2 (proj2 (proj2 H))) Hfirst)))) _).
  clear Hfirst.
  destruct (Forall_dec (block_readable sb (image f))
              (block_readable_dec sb (image f)) visited) as [Hall|Hnot].
  - (* every visited block is read *)
    pose proof Hall as Hall2. rewrite <- Himg2 in Hall2.
    destruct (read_file_loop_ok sb (direct ino) (size ino) [] f2
                Hbs Hsize Hall2) as [f' Hloop].
    rewrite (bind_ok _ _ _ _ _ Hloop), Himg2. cbn [app].
    pose proof (file_chunks_length sb (image f) (direct ino) (size ino)
                  Hbs Hsize Hall) as Hlen.
    fold (supply sb ino) in Hlen |- *.
    destruct (Z.max 0 (size ino - supply sb ino) =? 0) eqn:E;
      cbn [negb]; unfold raise, ret; cbn [fst].
    + apply Z.eqb_eq in E. split; [|split; [|split]].
      * intros data Hd. inversion Hd; subst.
        split; [lia|]. split; [reflexivity|].
        apply file_chunks_prefix; try assumption.
        unfold supply in E. lia.
      * split; [discriminate|]. intros [Hlt _]. lia.
      * eauto.
      * intros Hn. contradiction.
    + apply Z.eqb_neq in E. split; [|split; [|split]].
      * intros data Hd. discriminate.
      * split; [|reflexivity]. intros _. split; [lia|].
        subst visited.
        rewrite visited_blocks_all in Hall by (unfold supply in *; lia).
        exact Hall.
      * intros Hle. lia.
      * intros Hn. contradiction.
  - (* a visited block cannot be read *)
    pose proof Hnot as Hnot2. rewrite <- Himg2 in Hnot2.
    destruct (read_file_loop_fail sb (direct ino) (size ino) [] f2
                Hbs Hnot2) as [e [f' [Hloop He]]].
    rewrite (bind_raise _ _ _ _ _ Hloop). cbn [fst].
    split; [|split; [|split]].
    + intros data Hd. discriminate.
    + split.
      * destruct He as [He|[He|He]]; subst; discriminate.
      * intros [Hlt Hlead]. exfalso. apply Hnot. subst visited.
        rewrite visited_blocks_all by (unfold supply in *; lia).
        exact Hlead.
    + intros _ Hv. contradiction.
    + intros _. destruct He as [He|[He|He]]; subst; auto.
Qed.

End FileProperties.

Lemma read_file_content_spec_witness :
  fst (read_file_content Fixture.decode_ascii Fixture.sb (lit "/big")
         Fixture.f)
  = Raise TruncatedFile
  /\ fst (read_file_content Fixture.decode_ascii Fixture.sb (lit "/a.txt")
            Fixture.f)
     = Ok (Fixture.ascii_bytes "hello")
  /\ exists e,
       fst (read_block Fixture.sb 99 Fixture.f) = Raise e
       /\ fst (read_file_content Fixture.decode_ascii Fixture.sb
                 (lit "/bad") Fixture.f) = Raise e.
Proof.
  split; [|split].
  - assert (Hres : resolve_path Fixture.decode_ascii Fixture.sb (lit "/big")
                     Fixture.f
                   = (Ok 5, snd (resolve_path Fixture.decode_ascii Fixture.sb
                                   (lit "/big") Fixture.f)))
      by (vm_compute; reflexivity).
    assert (Hino : read_inode Fixture.sb 5
                     (snd (resolve_path Fixture.decode_ascii Fixture.sb
                             (lit "/big") Fixture.f))
                   = (Ok (Fixture.file_inode 5 600 [5]),
                      snd (read_inode Fixture.sb 5
                             (snd (resolve_path Fixture.decode_ascii
                                     Fixture.sb (lit "/big") Fixture.f)))))
      by (vm_compute; reflexivity).
    pose proof (read_file_content_spec Fixture.decode_ascii Fixture.sb
                  (lit "/big") Fixture.f _ _ 5 _ Hres Hino eq_refl) as H.
    cbv zeta in H. destruct H as (_ & [_ H] & _).
    apply H. split; [by_evaluation|].
    repeat constructor; by_evaluation.
  - assert (Hres : resolve_path Fixture.decode_ascii Fixture.sb
                     (lit "/a.txt") Fixture.f
                   = (Ok 2, snd (resolve_path Fixture.decode_ascii Fixture.sb
                                   (lit "/a.txt") Fixture.f)))
      by (vm_compute; reflexivity).
    assert (Hino : read_inode Fixture.sb 2
                     (snd (resolve_path Fixture.decode_ascii Fixture.sb
                             (lit "/a.txt") Fixture.f))
                   = (Ok (Fixture.file_inode 2 5 [4]),
                      snd (read_inode Fixture.sb 2
                             (snd (resolve_path Fixture.decode_ascii
                                     Fixture.sb (lit "/a.txt") Fixture.f)))))
      by (vm_compute; reflexivity).
    pose proof (read_file_content_spec Fixture.decode_ascii Fixture.sb
                  (lit "/a.txt") Fixture.f _ _ 2 _ Hres Hino eq_refl) as H.
    cbv zeta in H. destruct H as (Hdata & _ & Hok & _).
    destruct Hok as [data Hd].
    + by_evaluation.
    + repeat constructor; by_evaluation.
    + rewrite Hd. destruct (Hdata data Hd) as [_ [-> _]].
      vm_compute. reflexivity.
  - assert (Hres : resolve_path Fixture.decode_ascii Fixture.sb
                     (lit "/bad") Fixture.f
                   = (Ok 3, snd (resolve_path Fixture.decode_ascii Fixture.sb
                                   (lit "/bad") Fixture.f)))
      by (vm_compute; reflexivity).
    assert (Hino : read_inode Fixture.sb 3
                     (snd (resolve_path Fixture.decode_ascii Fixture.sb
                             (lit "/bad") Fixture.f))
                   = (Ok (Fixture.file_inode 3 1100 [5; 99]),
                      snd (read_inode Fixture.sb 3
                             (snd (resolve_path Fixture.decode_ascii
                                     Fixture.sb (lit "/bad") Fixture.f)))))
      by (vm_compute; reflexivity).
    pose proof (read_file_content_spec Fixture.decode_ascii Fixture.sb
                  (lit "/bad") Fixture.f _ _ 3 _ Hres Hino eq_refl) as H.
    cbv zeta in H. destruct H as (_ & _ & _ & _ & H).
    apply (H [5] 99 []).
    + reflexivity.
    + repeat constructor; by_evaluation.
    + intros [[_ Hr] _]. vm_compute in Hr. discriminate.
Defined.

(** ["/bad"] resolves to the file inode 3, whose size of 1100 bytes
    exceeds the 1024 bytes of its two leading non-zero direct blocks, and
    yet the failure of [read_file_content] is not the truncated-file one:
    the second of these blocks, 99, lies beyond [totalBlocks]. *)
Lemma read_file_content_unreadable_block :
  fst (resolve_path Fixture.decode_ascii Fixture.sb (lit "/bad") Fixture.f)
  = Ok 3
  /\ inode_at Fixture.sb Fixture.img 3
     = Some (Fixture.file_inode 3 1100 [5; 99])
  /\ supply Fixture.sb (Fixture.file_inode 3 1100 [5; 99])
     < size (Fixture.file_inode 3 1100 [5; 99])
  /\ fst (read_file_content Fixture.decode_ascii Fixture.sb (lit "/bad")
            Fixture.f)
     = Raise BlockOutOfRange
  /\ fst (read_file_content Fixture.decode_ascii Fixture.sb (lit "/bad")
            Fixture.f)
     <> Raise TruncatedFile.
Proof.
  split; [vm_compute; reflexivity|].
  split; [vm_compute; reflexivity|].
  split; [by_evaluation|].
  split; [vm_compute; reflexivity|].
  vm_compute. discriminate.
Defined.

(** ** Bitmap statistics *)

Lemma bit_set_testbit (b : byte) (i : Z) :
  bit_set b i = Z.testbit (byte_val b) (i mod 8).
Proof.
  unfold bit_set.
  assert (Hk : 0 <= i mod 8) by (apply Z.mod_pos_bound; lia).
  change 1 with (Z.ones 1).
  rewrite Z.land_ones, Z.shiftr_div_pow2 by lia.
  change (2 ^ 1) with 2.
  rewrite <- Z.testbit_spec' by lia.
  destruct (Z.testbit (byte_val b) (i mod 8)); reflexivity.
Qed.

Lemma bitmap_bits_loop_within (bmp : bytes) (n : nat) :
  forall used bit_index,
    0 <= bit_index ->
    bit_index + Z.of_nat n <= 8 * Z.of_nat (length bmp) ->
    bitmap_bits_loop bmp n used bit_index
    = Ok (used + used_bits bmp bit_index n, bit_index + Z.of_nat n).
Proof.
  induction n as [|n IH]; intros used bit_index H0 Hlen.
  - cbn [bitmap_bits_loop used_bits Z.of_nat]. now rewrite !Z.add_0_r.
  - cbn [bitmap_bits_loop used_bits].
    assert (Hidx : (Z.to_nat (bit_index / 8) < length bmp)%nat).
    { assert (bit_index / 8 < Z.of_nat (length bmp))
        by (apply Z.div_lt_upper_bound; lia).
      assert (0 <= bit_index / 8) by (apply Z.div_pos; lia).
      lia. }
    destruct (nth_error bmp (Z.to_nat (bit_index / 8))) as [b|] eqn:E;
      [|apply nth_error_None in E; lia].
    rewrite IH by lia.
    unfold logical_bit. rewrite (nth_error_nth _ _ x00 E), bit_set_testbit.
    f_equal. f_equal; [|lia].
    destruct (Z.testbit (byte_val b) (bit_index mod 8)); cbn [Z.b2z]; lia.
Qed.

(** An iteration whose byte index is past the end of the block raises. *)
Lemma bitmap_bits_loop_past_end (bmp : bytes) (n : nat) (used bit_index : Z) :
  (0 < n)%nat ->
  8 * Z.of_nat (length bmp) <= bit_index ->
  bitmap_bits_loop bmp n used bit_index = Raise IndexError.
Proof.
  intros Hn Hidx. destruct n as [|n]; [lia|].
  cbn [bitmap_bits_loop].
  assert (Z.of_nat (length bmp) <= bit_index / 8)
    by (apply Z.div_le_lower_bound; lia).
  destruct (nth_error bmp (Z.to_nat (bit_index / 8))) as [b|] eqn:E;
    [|reflexivity].
  assert (Z.to_nat (bit_index / 8) < length bmp)%nat
    by (apply nth_error_Some; congruence).
  lia.
Qed.

Lemma bitmap_blocks_loop_done (sb : SuperBlock) (bs : list Z)
    (used remaining bit_index : Z) (f : file) :
  remaining <= 0 ->
  bitmap_blocks_loop sb bs used remaining bit_index f = (Ok used, f).
Proof.
  intros H. destruct bs as [|b rest]; [reflexivity|].
  cbn [bitmap_blocks_loop].
  destruct (remaining <=? 0) eqn:E; [reflexivity|].
  apply Z.leb_gt in E. lia.
Qed.

(** Whenever [bitmap_stats] returns, [total] is [dataBlockCount] and
    [used + free = total]. *)
Lemma bitmap_stats_totals (sb : SuperBlock) (f f' : file)
    (total used free : Z) :
  bitmap_stats sb f = (Ok (total, used, free), f') ->
  total = dataBlockCount sb /\ used + free = total.
Proof.
  unfold bitmap_stats, bind.
  destruct (bitmap_blocks_loop sb _ 0 (dataBlockCount sb) 0 f)
    as [[u|e] g]; [|discriminate].
  unfold ret. intros H. inversion H; subst. lia.
Qed.

(** A data region that fits the bits of one bitmap block is counted as
    the claim says: only its first [dataBlockCount] logical bits count. *)
Lemma bitmap_stats_one_block (sb : SuperBlock) (f : file) :
  0 < blockSize sb ->
  0 <= dataBlockCount sb <= blockSize sb * 8 ->
  1 <= freeBitmapBlocks sb ->
  block_readable sb (image f) (freeBitmapStart sb) ->
  let used := used_bits (block_bytes sb (image f) (freeBitmapStart sb)) 0
                (Z.to_nat (dataBlockCount sb)) in
  fst (bitmap_stats sb f)
  = Ok (dataBlockCount sb, used, dataBlockCount sb - used).
Proof.
  intros Hbs Hdbc Hfbb Hblk used.
  unfold bitmap_stats, range.
  destruct (Z.to_nat (freeBitmapBlocks sb)) as [|k] eqn:Ek; [lia|].
  cbn [seq map bitmap_blocks_loop]. unfold bind at 1.
  destruct (dataBlockCount sb <=? 0) eqn:E0.
  - apply Z.leb_le in E0. unfold ret. cbn [fst]. subst used.
    replace (dataBlockCount sb) with 0 by lia. reflexivity.
  - apply Z.leb_gt in E0.
    change (Z.of_nat 0) with 0. rewrite Z.add_0_r.
    rewrite (bind_ok _ _ _ _ _ (read_block_readable sb _ f ltac:(lia) Hblk)).
    pose proof (block_bytes_length sb (image f) _ Hbs Hblk) as Hlen.
    rewrite Hlen, Z.min_r by lia.
    rewrite bitmap_bits_loop_within by lia.
    rewrite bitmap_blocks_loop_done by lia.
    unfold ret. cbn [fst]. reflexivity.
Qed.

(** A data region with more blocks than one bitmap block has bits makes
    [bitmap_stats] raise at the first bit of the second bitmap block:
    [bit_index] is not brought back to 0 where that block begins, so
    [bmp[bit_index // 8]] indexes past its end. *)
Lemma bitmap_stats_second_block (sb : SuperBlock) (f : file) :
  0 < blockSize sb ->
  blockSize sb * 8 < dataBlockCount sb ->
  2 <= freeBitmapBlocks sb ->
  block_readable sb (image f) (freeBitmapStart sb) ->
  block_readable sb (image f) (freeBitmapStart sb + 1) ->
  fst (bitmap_stats sb f) = Raise IndexError.
Proof.
  intros Hbs Hdbc Hfbb Hb0 Hb1.
  unfold bitmap_stats, range.
  destruct (Z.to_nat (freeBitmapBlocks sb)) as [|[|k]] eqn:Ek; try lia.
  cbn [seq map bitmap_blocks_loop]. unfold bind at 1.
  destruct (dataBlockCount sb <=? 0) eqn:E0; [apply Z.leb_le in E0; lia|].
  change (Z.of_nat 0) with 0. change (Z.of_nat 1) with 1.
  rewrite Z.add_0_r.
  rewrite (bind_ok _ _ _ _ _ (read_block_readable sb _ f ltac:(lia) Hb0)).
  pose proof (block_bytes_length sb (image f) _ Hbs Hb0) as Hlen0.
  rewrite Hlen0, Z.min_l by lia.
  rewrite bitmap_bits_loop_within by lia.
  cbn [bitmap_blocks_loop].
  destruct (dataBlockCount sb - blockSize sb * 8 <=? 0) eqn:E1;
    [apply Z.leb_le in E1; lia|].
  rewrite (bind_ok _ _ _ _ _
             (read_block_readable sb _
                (after_read f (freeBitmapStart sb * blockSize sb)
                   (blockSize sb))
                ltac:(lia) Hb1)).
  cbn [after_read image].
  pose proof (block_bytes_length sb (image f) _ Hbs Hb1) as Hlen1.
  rewrite bitmap_bits_loop_past_end; [reflexivity|lia|lia].
Qed.

(** C1 (the code departs from it). The 517-block image is valid: its
    superblock decodes, its two bitmap blocks offer 1024 bits for the 513
    blocks of its data region, and both can be read. [bitmap_stats] returns
    no triple for it: it raises on the first bit of the second bitmap
    block. On the 12-block image, whose bitmap fits one block, it returns
    [(9, 6, 3)]. *)
Theorem bitmap_stats_two_bitmap_blocks :
  fst (read_superblock Fixture.f_wide) = Ok Fixture.sb_wide
  /\ dataBlockCount Fixture.sb_wide
     <= freeBitmapBlocks Fixture.sb_wide * (blockSize Fixture.sb_wide * 8)
  /\ block_readable Fixture.sb_wide Fixture.img_wide 2
  /\ block_readable Fixture.sb_wide Fixture.img_wide 3
  /\ fst (bitmap_stats Fixture.sb_wide Fixture.f_wide) = Raise IndexError
  /\ fst (bitmap_stats Fixture.sb Fixture.f) = Ok (9, 6, 3).
Proof.
  split; [vm_compute; reflexivity|].
  split; [by_evaluation|].
  split; [by_evaluation|].
  split; [by_evaluation|].
  split; [|vm_compute; reflexivity].
  apply bitmap_stats_second_block; by_evaluation.
Qed.

(** * Further properties of the routines *)

(** ** Exact reads and the superblock *)

Lemma byte_val_lt (b : byte) : byte_val b < 256.
Proof. unfold byte_val. pose proof (Byte.to_N_bounded b). lia. Qed.

Lemma le_uint_lt (bs : bytes) : le_uint bs < 256 ^ Z.of_nat (length bs).
Proof.
  induction bs as [|b rest IH]; [reflexivity|].
  cbn [le_uint length]. rewrite Nat2Z.inj_succ, Z.pow_succ_r by lia.
  pose proof (byte_val_lt b). pose proof (le_uint_nonneg rest). lia.
Qed.

Lemma le_uint_firstn_4 (raw : bytes) : 0 <= le_uint (firstn 4 raw) < 2 ^ 32.
Proof.
  split; [apply le_uint_nonneg|].
  pose proof (le_uint_lt (firstn 4 raw)) as H.
  assert (Hlen : (length (firstn 4 raw) <= 4)%nat)
    by (rewrite length_firstn; lia).
  assert (256 ^ Z.of_nat (length (firstn 4 raw)) <= 256 ^ 4)
    by (apply Z.pow_le_mono_r; lia).
  change (2 ^ 32) with (256 ^ 4). lia.
Qed.

(** X1. A [read_exact] that returns has read exactly [n] bytes: the [n]
    bytes of the image from the position of the handle on, which it leaves
    [n] bytes further; a shorter read never comes back as a result. *)
Theorem read_exact_returns_exactly (n : Z) (f f' : file) (data : bytes) :
  read_exact n f = (Ok data, f') ->
  Z.of_nat (length data) = n
  /\ data = slice (image f) (Z.to_nat (pos f)) (Z.to_nat n)
  /\ f' = after_read f (pos f) n.
Proof.
  unfold read_exact, bind, f_read. intros H.
  destruct (n <? -1) eqn:En1; [discriminate|].
  destruct (n <? 0) eqn:En.
  - apply Z.ltb_lt in En.
    destruct (Z.of_nat _ =? n) eqn:E; [apply Z.eqb_eq in E; lia|].
    discriminate.
  - fold (slice (image f) (Z.to_nat (pos f)) (Z.to_nat n)) in H.
    destruct (Z.of_nat _ =? n) eqn:E; [|discriminate].
    apply Z.eqb_eq in E. cbn [negb] in H. unfold ret in H.
    inversion H; subst data. clear H.
    split; [exact E|]. split; [reflexivity|].
    unfold after_read. now rewrite E.
Qed.

Lemma read_exact_returns_exactly_witness :
  Z.of_nat (length (Fixture.pad 512 (Fixture.superblock_bytes Fixture.sb)))
  = 512.
Proof.
  refine (proj1 (read_exact_returns_exactly 512 Fixture.f
                   (after_read Fixture.f 0 512) _ _)).
  vm_compute. reflexivity.
Defined.

(** X2. The geometry [read_superblock] returns carries the magic constant,
    a positive [blockSize] and a positive [totalBlocks], and every field is
    an unsigned 32-bit value. *)
Theorem read_superblock_fields (f f' : file) (sb : SuperBlock) :
  read_superblock f = (Ok sb, f') ->
  let u32 v := 0 <= v < 2 ^ 32 in
  magic sb = FS_MAGIC
  /\ 0 < blockSize sb < 2 ^ 32
  /\ 0 < totalBlocks sb < 2 ^ 32
  /\ u32 (inodeTableStart sb) /\ u32 (inodeTableBlocks sb)
  /\ u32 (inodeCount sb) /\ u32 (freeBitmapStart sb)
  /\ u32 (freeBitmapBlocks sb) /\ u32 (dataBlockStart sb)
  /\ u32 (dataBlockCount sb) /\ u32 (rootInodeId sb).
Proof.
  intros H. cbv zeta. unfold read_superblock, bind in H.
  destruct (read_exact 44 f) as [[raw|e] f1]; [|discriminate].
  cbn [unpack_uint32s] in H.
  cbn [magic blockSize totalBlocks] in H.
  destruct (le_uint (firstn 4 raw) =? FS_MAGIC) eqn:Em; [|discriminate].
  apply Z.eqb_eq in Em. cbn [negb] in H.
  destruct (le_uint (firstn 4 (skipn 4 raw)) <=? 0) eqn:E1; [discriminate|].
  destruct (le_uint (firstn 4 (skipn 4 (skipn 4 raw))) <=? 0) eqn:E2;
    [discriminate|].
  apply Z.leb_gt in E1, E2. cbn [orb] in H. unfold ret in H.
  inversion H; subst sb; clear H.
  cbn [magic blockSize totalBlocks inodeTableStart inodeTableBlocks
       inodeCount freeBitmapStart freeBitmapBlocks dataBlockStart
       dataBlockCount rootInodeId].
  repeat match goal with
  | |- _ /\ _ => split
  end;
    solve [ exact Em | assumption
          | apply (proj1 (le_uint_firstn_4 _))
          | apply (proj2 (le_uint_firstn_4 _)) ].
Qed.

Lemma read_superblock_fields_witness :
  magic Fixture.sb = FS_MAGIC /\ 0 < blockSize Fixture.sb < 2 ^ 32.
Proof.
  assert (H0 : read_superblock Fixture.f
               = (Ok Fixture.sb, snd (read_superblock Fixture.f)))
    by (vm_compute; reflexivity).
  pose proof (read_superblock_fields _ _ _ H0) as H.
  cbv zeta in H. destruct H as (Hm & Hb & _).
  split; assumption.
Defined.

(** X3. On an image shorter than the 44 bytes of the header, the empty
    image included, [read_superblock] fails with the short-read error. *)
Theorem read_superblock_short_image (img : bytes) :
  (length img < 44)%nat ->
  fst (read_superblock (open_image img)) = Raise UnexpectedEOF.
Proof.
  intros Hlen. unfold read_superblock.
  destruct (read_exact_short 44 (open_image img)) as [f' [H _]];
    [lia | simpl; lia | simpl; lia |].
  now rewrite (bind_raise _ _ _ _ _ H).
Qed.

Lemma read_superblock_short_image_witness :
  fst (read_superblock (open_image [])) = Raise UnexpectedEOF
  /\ fst (read_superblock (open_image (firstn 43 Fixture.img)))
     = Raise UnexpectedEOF.
Proof.
  split.
  - apply (read_superblock_short_image []). simpl. lia.
  - apply (read_superblock_short_image (firstn 43 Fixture.img)).
    rewrite length_firstn. lia.
Defined.

(** ** Addresses of inode records *)

(** X4. An offset [inode_offset] returns lies inside the inode table: the
    44 bytes of the record fit in one block of the table, the block
    [inodeTableStart + inode_id div inodesPerBlock]. *)
Theorem inode_offset_within_table (sb : SuperBlock) (inode_id off : Z) :
  inode_offset sb inode_id = Ok off ->
  let blk := inodeTableStart sb + inode_id / (blockSize sb / 44) in
  inodeTableStart sb <= blk < inodeTableStart sb + inodeTableBlocks sb
  /\ blk * blockSize sb <= off
  /\ off + 44 <= (blk + 1) * blockSize sb.
Proof.
  intros H. cbv zeta.
  unfold inode_offset, file_offset_of_block, INODE_SIZE in H.
  set (ipb := blockSize sb / 44) in *.
  destruct (ipb <=? 0) eqn:E0; [discriminate|].
  destruct (inode_id <? 0) eqn:E1; [discriminate|].
  destruct (inode_id >=? inodeCount sb) eqn:E2; [discriminate|].
  cbn [orb] in H.
  destruct (inode_id / ipb >=? inodeTableBlocks sb) eqn:E3; [discriminate|].
  inversion H; subst off; clear H.
  apply Z.leb_gt in E0. apply Z.ltb_ge in E1.
  rewrite Z.geb_leb in E3. apply Z.leb_gt in E3.
  assert (Hq : 0 <= inode_id / ipb) by (apply Z.div_pos; lia).
  pose proof (Z.mod_pos_bound inode_id ipb ltac:(lia)) as Hr.
  assert (Hbs : 44 * ipb <= blockSize sb).
  { subst ipb. apply Z.mul_div_le. lia. }
  repeat split; try lia; nia.
Qed.

Lemma inode_offset_within_table_witness :
  1 * 512 <= 1 * 512 + 6 * 44 /\ 1 * 512 + 6 * 44 + 44 <= (1 + 1) * 512.
Proof.
  pose proof (inode_offset_within_table Fixture.sb 6 (1 * 512 + 6 * 44)
                eq_refl) as H.
  cbv zeta in H. destruct H as (_ & H1 & H2).
  split; [exact H1|exact H2].
Defined.

(** X5. The records of two distinct inodes do not overlap: the larger
    identifier is addressed at least 44 bytes after the smaller one. *)
Theorem inode_offset_disjoint (sb : SuperBlock) (i j oi oj : Z) :
  inode_offset sb i = Ok oi ->
  inode_offset sb j = Ok oj ->
  i < j ->
  oi + 44 <= oj.
Proof.
  intros Hi Hj Hlt.
  pose proof (inode_offset_ok_blockSize _ _ _ Hi) as Hbs.
  unfold inode_offset, file_offset_of_block, INODE_SIZE in Hi, Hj.
  set (ipb := blockSize sb / 44) in *.
  destruct (ipb <=? 0) eqn:E0; [discriminate|].
  apply Z.leb_gt in E0.
  destruct (i <? 0) eqn:Ei; [discriminate|].
  destruct (j <? 0) eqn:Ej; [discriminate|].
  destruct (i >=? inodeCount sb); [discriminate|].
  destruct (j >=? inodeCount sb); [discriminate|].
  cbn [orb] in Hi, Hj.
  destruct (i / ipb >=? inodeTableBlocks sb); [discriminate|].
  destruct (j / ipb >=? inodeTableBlocks sb); [discriminate|].
  inversion Hi; subst oi. inversion Hj; subst oj. clear Hi Hj.
  apply Z.ltb_ge in Ei, Ej.
  assert (Hip : 44 * ipb <= blockSize sb).
  { subst ipb. apply Z.mul_div_le. lia. }
  pose proof (Z.div_mod i ipb ltac:(lia)) as Di.
  pose proof (Z.div_mod j ipb ltac:(lia)) as Dj.
  pose proof (Z.mod_pos_bound i ipb ltac:(lia)) as Ri.
  pose proof (Z.mod_pos_bound j ipb ltac:(lia)) as Rj.
  assert (Hq : i / ipb <= j / ipb) by (apply Z.div_le_mono; lia).
  destruct (Z.eq_dec (i / ipb) (j / ipb)) as [Heq|Hne].
  - rewrite Heq in *. nia.
  - assert (i / ipb + 1 <= j / ipb) by lia. nia.
Qed.

Lemma inode_offset_disjoint_witness :
  (1 * 512 + 2 * 44) + 44 <= 1 * 512 + 6 * 44.
Proof.
  apply (inode_offset_disjoint Fixture.sb 2 6);
    [reflexivity | reflexivity | lia].
Defined.

(** ** The layout of an inode record *)

Lemma firstn_4_skipn (l : bytes) :
  forall k, (k + 4 <= length l)%nat ->
    firstn 4 (skipn k l)
    = [nth k l x00; nth (k + 1) l x00; nth (k + 2) l x00; nth (k + 3) l x00].
Proof.
  induction l as [|a l IH]; intros k Hk; [simpl in Hk; lia|].
  destruct k as [|k].
  - destruct l as [|b [|c [|d rest]]]; try (simpl in Hk; lia). reflexivity.
  - cbn [skipn]. rewrite IH by (simpl in Hk; lia). reflexivity.
Qed.

Lemma le_uint_slice_4 (raw : bytes) (k : nat) :
  (k + 4 <= length raw)%nat -> le_uint (slice raw k 4) = u32_at raw k.
Proof.
  intros Hk. unfold slice, u32_at.
  rewrite firstn_4_skipn by exact Hk. apply le_uint_4.
Qed.

Lemma u32_at_slice (img : bytes) (o n k : nat) :
  (k + 4 <= n)%nat -> u32_at (slice img o n) k = u32_at img (o + k).
Proof.
  intros Hk. unfold slice. rewrite u32_at_firstn by lia.
  unfold u32_at. rewrite !nth_skipn, !Nat.add_assoc. reflexivity.
Qed.

Lemma u32_at_skipn (raw : bytes) (n k : nat) :
  u32_at (skipn n raw) k = u32_at raw (n + k).
Proof.
  unfold u32_at. rewrite !nth_skipn, !Nat.add_assoc. reflexivity.
Qed.

(** The record [unpack_inode] decodes from the 44 bytes at offset [o]. *)
Lemma unpack_inode_at (img : bytes) (o : nat) :
  (o + 44 <= length img)%nat ->
  unpack_inode (slice img o 44)
  = {| id := u32_at img o;
       is_dir := negb (byte_val (nth (o + 4) img x00) =? 0);
       size := u32_at img (o + 8);
       direct := map (fun k => u32_at img (o + 12 + 4 * k)) (seq 0 8) |}.
Proof.
  intros Hlen.
  pose proof (slice_length img o 44 Hlen) as Hraw.
  unfold unpack_inode. f_equal.
  - rewrite le_uint_slice_4 by lia. rewrite u32_at_slice by lia.
    f_equal. lia.
  - f_equal. f_equal.
    assert (Hone : slice (slice img o 44) 4 1 = [nth (o + 4) img x00]).
    { unfold slice at 1.
      destruct (skipn 4 (slice img o 44)) as [|b rest] eqn:E.
      - assert (length (skipn 4 (slice img o 44)) = 40%nat)
          by (rewrite length_skipn; lia).
        rewrite E in H. discriminate.
      - cbn [firstn]. f_equal.
        assert (Hb : nth 0 (skipn 4 (slice img o 44)) x00 = b)
          by (rewrite E; reflexivity).
        rewrite <- Hb, nth_skipn. unfold slice.
        rewrite nth_firstn. cbn. rewrite nth_skipn. reflexivity. }
    rewrite Hone. cbn [le_uint]. lia.
  - rewrite le_uint_slice_4 by lia. rewrite u32_at_slice by lia.
    reflexivity.
  - rewrite unpack_uint32s_at by (rewrite length_skipn; lia).
    apply map_ext_in. intros k Hk. apply in_seq in Hk.
    rewrite u32_at_skipn, u32_at_slice by lia.
    f_equal. lia.
Qed.

(** X6. [read_inode] decodes the 44 bytes at the offset of the record (an
    offset the runtime can seek to, as every offset inside a file is),
    wherever the handle stood before: the identifier from bytes 0..3, the
    directory flag from byte 4 (any non-zero byte means a directory), the
    size from bytes 8..11 and the eight direct blocks from bytes 12..43,
    all little-endian; bytes 5..7 play no part. *)
Theorem read_inode_layout (sb : SuperBlock) (inode_id off : Z) (f : file) :
  inode_offset sb inode_id = Ok off ->
  0 <= off < MAX_OFFSET ->
  off + 44 <= Z.of_nat (length (image f)) ->
  let o := Z.to_nat off in
  fst (read_inode sb inode_id f)
  = Ok {| id := u32_at (image f) o;
          is_dir := negb (byte_val (nth (o + 4) (image f) x00) =? 0);
          size := u32_at (image f) (o + 8);
          direct := map (fun k => u32_at (image f) (o + 12 + 4 * k))
                        (seq 0 8) |}.
Proof.
  intros Hoff H0 Hlen. cbv zeta.
  assert (Hat : inode_at sb (image f) inode_id
                = Some (unpack_inode (slice (image f) (Z.to_nat off) 44))).
  { unfold inode_at. rewrite Hoff. unfold INODE_SIZE.
    destruct (0 <=? off) eqn:E0; [|apply Z.leb_gt in E0; lia].
    destruct (off <? MAX_OFFSET) eqn:Em; [|apply Z.ltb_ge in Em; lia].
    destruct (off + 44 <=? Z.of_nat (length (image f))) eqn:E1;
      [|apply Z.leb_gt in E1; lia].
    reflexivity. }
  destruct (read_inode_at _ _ _ _ Hat) as [off' [_ Hr]].
  rewrite Hr. cbn [fst]. f_equal.
  apply unpack_inode_at. lia.
Qed.

Lemma read_inode_layout_witness :
  fst (read_inode Fixture.sb 6 Fixture.f)
  = Ok {| id := u32_at Fixture.img 776;
          is_dir := negb (byte_val (nth 780 Fixture.img x00) =? 0);
          size := u32_at Fixture.img 784;
          direct := map (fun k => u32_at Fixture.img (776 + 12 + 4 * k))
                        (seq 0 8) |}.
Proof.
  apply (read_inode_layout Fixture.sb 6 776 Fixture.f);
    [reflexivity | by_evaluation | by_evaluation].
Defined.



(** ** Components of a path *)

Lemma split_path_filter (path : str) :
  split_path path = filter nonempty (split_on_sep path).
Proof.
  pose proof (split_path_loop_spec path [] []) as H.
  unfold split_path. unfold split_path_finish in H.
  destruct (split_path_loop path [] []) as [comps cur].
  rewrite H. simpl.
  destruct (split_on_sep path); reflexivity.
Qed.

Lemma split_on_sep_app (p q : str) :
  split_on_sep (p ++ SEP :: q) = split_on_sep p ++ split_on_sep q.
Proof.
  induction p as [|ch p IH].
  - cbn [app split_on_sep].
    pose proof (split_on_sep_not_nil q) as Hq.
    destruct (split_on_sep q) as [|c cs]; [contradiction|].
    reflexivity.
  - cbn [app split_on_sep]. rewrite IH.
    pose proof (split_on_sep_not_nil p) as Hp.
    destruct (split_on_sep p) as [|c cs]; [contradiction|].
    cbn [app]. destruct (N.eqb ch SEP); reflexivity.
Qed.

Lemma split_on_sep_clean (c : str) :
  ~ In SEP c -> split_on_sep c = [c].
Proof.
  induction c as [|ch c IH]; intros Hc; [reflexivity|].
  cbn [split_on_sep]. rewrite IH by (intros H; apply Hc; now right).
  destruct (N.eqb ch SEP) eqn:E; [|reflexivity].
  apply N.eqb_eq in E. exfalso. apply Hc. now left.
Qed.

Lemma split_on_sep_join (comps : list str) :
  comps <> [] ->
  Forall (fun c => ~ In SEP c) comps ->
  split_on_sep (join_sep comps) = comps.
Proof.
  induction comps as [|c rest IH]; intros Hne Hall; [contradiction|].
  inversion Hall as [|? ? Hc Hrest]; subst.
  destruct rest as [|c' rest].
  - cbn [join_sep]. now apply split_on_sep_clean.
  - change (join_sep (c :: c' :: rest))
      with (c ++ SEP :: join_sep (c' :: rest)).
    rewrite split_on_sep_app, split_on_sep_clean by exact Hc.
    rewrite IH by (discriminate || exact Hrest). reflexivity.
Qed.

Lemma filter_nonempty_all (comps : list str) :
  Forall (fun c => c <> []) comps -> filter nonempty comps = comps.
Proof.
  induction 1 as [|c rest Hc _ IH]; [reflexivity|].
  cbn [filter]. destruct c; [contradiction|]. cbn [nonempty]. now rewrite IH.
Qed.

(** X8. Every component [split_path] returns is non-empty and holds no
    separator. *)
Theorem split_path_components (path : str) :
  Forall (fun c => c <> [] /\ ~ In SEP c) (split_path path).
Proof.
  rewrite split_path_filter. apply Forall_forall. intros c Hc.
  apply filter_In in Hc. destruct Hc as [Hin Hne].
  split.
  - intros ->. discriminate.
  - pose proof (split_on_sep_no_sep path) as H.
    rewrite Forall_forall in H. now apply H.
Qed.

(** X9. Joining components with single separators and splitting again
    gives the components back, with or without a leading separator, as
    long as each component is non-empty and free of separators. *)
Theorem split_path_join (comps : list str) :
  Forall (fun c => c <> [] /\ ~ In SEP c) comps ->
  split_path (join_sep comps) = comps
  /\ split_path (SEP :: join_sep comps) = comps.
Proof.
  intros Hall.
  assert (Hne : Forall (fun c => c <> []) comps)
    by (eapply Forall_impl; [|exact Hall]; intros c [H _]; exact H).
  assert (Hclean : Forall (fun c => ~ In SEP c) comps)
    by (eapply Forall_impl; [|exact Hall]; intros c [_ H]; exact H).
  destruct comps as [|c rest]; [split; reflexivity|].
  assert (Hs : split_on_sep (join_sep (c :: rest)) = c :: rest)
    by (apply split_on_sep_join; [discriminate|exact Hclean]).
  rewrite !split_path_filter.
  change (SEP :: join_sep (c :: rest)) with ([] ++ SEP :: join_sep (c :: rest)).
  rewrite split_on_sep_app, Hs.
  change (filter nonempty (split_on_sep [] ++ c :: rest))
    with (filter nonempty (c :: rest)).
  split; apply filter_nonempty_all; exact Hne.
Qed.

Lemma split_path_join_witness :
  split_path (join_sep [lit "usr"; lit "share"; lit "doc"])
  = [lit "usr"; lit "share"; lit "doc"]
  /\ split_path (SEP :: join_sep [lit "usr"; lit "share"; lit "doc"])
     = [lit "usr"; lit "share"; lit "doc"].
Proof.
  apply (split_path_join [lit "usr"; lit "share"; lit "doc"]).
  repeat constructor; try discriminate;
    (intros H; vm_compute in H; intuition discriminate).
Defined.

(** X10. Splitting two paths glued with a separator gives the components
    of the first followed by those of the second. *)
Theorem split_path_concat (p q : str) :
  split_path (p ++ SEP :: q) = split_path p ++ split_path q.
Proof.
  rewrite !split_path_filter, split_on_sep_app. apply filter_app.
Qed.

(** ** Entries of a directory block *)

Lemma until_nul_no_nul (raw : bytes) : ~ In x00 (until_nul raw).
Proof.
  induction raw as [|b rest IH]; [intros []|].
  cbn [until_nul]. destruct (Byte.eqb b x00) eqn:E; [intros []|].
  intros [H|H]; [|contradiction].
  subst b. discriminate.
Qed.

Lemma until_nul_length (raw : bytes) :
  (length (until_nul raw) <= length raw)%nat.
Proof.
  induction raw as [|b rest IH]; [reflexivity|].
  cbn [until_nul]. destruct (Byte.eqb b x00); cbn [length]; lia.
Qed.

Lemma dir_records_shape (block : bytes) :
  Forall (fun rec => 0 <= fst rec < 2 ^ 32 /\ (length (snd rec) <= 60)%nat)
    (dir_records block).
Proof.
  unfold dir_records. apply Forall_map, Forall_forall. intros k _.
  unfold unpack_direntry. cbn [fst snd]. split.
  - unfold slice at 1. cbn [skipn]. apply le_uint_firstn_4.
  - apply slice_length_le.
Qed.

Lemma until_nul_split (raw : bytes) :
  exists rest, raw = until_nul raw ++ rest
               /\ (rest = [] \/ exists t, rest = x00 :: t).
Proof.
  induction raw as [|b raw IH].
  - exists []. auto.
  - cbn [until_nul]. destruct (Byte.eqb b x00) eqn:E.
    + apply Byte.byte_dec_bl in E. subst b. exists (x00 :: raw). eauto.
    + destruct IH as [rest [Hraw Hrest]].
      exists rest. cbn [app]. split; [now rewrite <- Hraw|exact Hrest].
Qed.

Lemma slice_name_buffer (block : bytes) (a : nat) :
  (a + 64 <= length block)%nat ->
  slice (slice block a 64) 4 60 = slice block (a + 4) 60.
Proof.
  intros Hlen. unfold slice.
  rewrite skipn_firstn_comm, skipn_skipn, firstn_firstn.
  rewrite (Nat.add_comm 4 a). reflexivity.
Qed.

Section EntryProperties.

Variable decode : bytes -> str.

(** X11. A directory block of [n] bytes yields at most [n div 64]
    entries, and the inode identifier of each is a non-zero unsigned
    32-bit value. *)
Theorem parse_dir_block_entries (block : bytes) :
  (length (parse_dir_block decode block) <= length block / 64)%nat
  /\ Forall (fun e => 0 < fst e < 2 ^ 32) (parse_dir_block decode block).
Proof.
  rewrite parse_dir_block_records. split.
  - rewrite length_map.
    eapply Nat.le_trans; [apply filter_length_le|].
    unfold dir_records. now rewrite length_map, length_seq.
  - apply Forall_map, Forall_forall. intros rec Hrec.
    apply filter_In in Hrec. destruct Hrec as [Hin Huse].
    pose proof (dir_records_shape block) as Hshape.
    rewrite Forall_forall in Hshape. destruct (Hshape rec Hin) as [Hid _].
    unfold in_use in Huse. cbn [fst].
    destruct (fst rec =? 0) eqn:E; [discriminate|].
    apply Z.eqb_neq in E. unfold bytes in *. lia.
Qed.

(** X12. Every entry comes from a whole 64-byte record of the block:
    its identifier is the little-endian value of bytes 0..3 of the record
    and its name is the decoding of the 60-byte name buffer (bytes 4..63)
    cut at its first NUL, or of the whole buffer when it holds no NUL. *)
Theorem parse_dir_block_names (block : bytes) :
  Forall (fun e =>
            exists k raw rest,
              (k < length block / 64)%nat
              /\ fst e = u32_at block (k * 64)
              /\ slice block (k * 64 + 4) 60 = raw ++ rest
              /\ length (raw ++ rest) = 60%nat
              /\ ~ In x00 raw
              /\ (rest = [] \/ exists t, rest = x00 :: t)
              /\ snd e = decode raw)
    (parse_dir_block decode block).
Proof.
  rewrite parse_dir_block_records.
  apply Forall_map, Forall_forall. intros rec Hrec.
  apply filter_In in Hrec. destruct Hrec as [Hin _].
  unfold dir_records in Hin. apply in_map_iff in Hin.
  destruct Hin as [k [Hrec Hk]]. apply in_seq in Hk.
  assert (Hfull : (k * 64 + 64 <= length block)%nat).
  { assert (64 * (length block / 64) <= length block)%nat
      by (apply Nat.Div0.mul_div_le).
    lia. }
  pose proof (slice_length block (k * 64) 64 Hfull) as Hchunk.
  destruct (until_nul_split (snd rec)) as [rest [Hsplit Hrest]].
  exists k, (until_nul (snd rec)), rest.
  subst rec. unfold unpack_direntry in *. cbn [fst snd] in *.
  rewrite (slice_name_buffer block (k * 64) Hfull) in *.
  split; [lia|]. split.
  { rewrite le_uint_slice_4 by lia. rewrite u32_at_slice by lia.
    f_equal. lia. }
  split; [exact Hsplit|]. split.
  { rewrite <- Hsplit. apply slice_length. lia. }
  split; [apply until_nul_no_nul|]. split; [exact Hrest|].
  reflexivity.
Qed.

(** X13. Bytes after the last whole 64-byte record are ignored: a tail
    shorter than a record adds no entry, and a block shorter than a record
    has none. *)
Theorem parse_dir_block_partial_record (block tail : bytes) (m : nat) :
  length block = (m * 64)%nat ->
  (length tail < 64)%nat ->
  parse_dir_block decode (block ++ tail) = parse_dir_block decode block.
Proof.
  intros Hlen Htail.
  rewrite !parse_dir_block_records. f_equal. f_equal.
  unfold dir_records.
  assert (Hm : (length (block ++ tail) / 64 = m)%nat).
  { rewrite length_app, Hlen.
    symmetry. apply (Nat.div_unique _ 64 m (length tail)); lia. }
  assert (Hm' : (length block / 64 = m)%nat)
    by (rewrite Hlen; apply Nat.div_mul; lia).
  rewrite Hm, Hm'. apply map_ext_in. intros k Hk. apply in_seq in Hk.
  f_equal. unfold slice.
  rewrite skipn_app, firstn_app, length_skipn.
  replace (64 - (length block - k * 64))%nat with 0%nat by nia.
  cbn [firstn]. now rewrite app_nil_r.
Qed.

End EntryProperties.

Lemma parse_dir_block_partial_record_witness :
  parse_dir_block Fixture.decode_ascii
    (Fixture.direntry_bytes 2 "a.txt" ++ Fixture.u32 7)
  = parse_dir_block Fixture.decode_ascii (Fixture.direntry_bytes 2 "a.txt")
  /\ parse_dir_block Fixture.decode_ascii ([] ++ Fixture.u32 7)
     = parse_dir_block Fixture.decode_ascii [].
Proof.
  split.
  - apply (parse_dir_block_partial_record Fixture.decode_ascii
             (Fixture.direntry_bytes 2 "a.txt") (Fixture.u32 7) 1);
      [reflexivity | simpl; lia].
  - apply (parse_dir_block_partial_record Fixture.decode_ascii
             [] (Fixture.u32 7) 0); [reflexivity | simpl; lia].
Defined.

(** ** The walk of [resolve_path] *)

Lemma find_child_none {A : Type} (dec : A -> str) (name : str)
    (recs : list (Z * A)) :
  (forall rec, In rec recs -> negb (fst rec =? 0) = true ->
               dec (snd rec) <> name) ->
  find_child name
    (map (fun r => (fst r, dec (snd r)))
         (filter (fun r => negb (fst r =? 0)) recs))
  = None.
Proof.
  induction recs as [|[c0 r0] recs IH]; intros Hno; [reflexivity|].
  cbn [filter fst].
  destruct (negb (c0 =? 0)) eqn:E.
  - cbn [map find_child fst snd].
    assert (Hneq : dec r0 <> name)
      by (apply (Hno (c0, r0)); [now left|exact E]).
    apply str_eqb_neq in Hneq. rewrite Hneq.
    apply IH. intros rec Hin. apply Hno. now right.
  - apply IH. intros rec Hin. apply Hno. now right.
Qed.

Section WalkProperties.

Variable decode : bytes -> str.

Lemma resolve_path_of_components (sb : SuperBlock) (path : str) (f : file)
    (c : str) (cs : list str) :
  split_path path = c :: cs ->
  resolve_path decode sb path f
  = resolve_loop decode sb (c :: cs) (rootInodeId sb) f.
Proof.
  intros Hsplit. unfold resolve_path.
  assert (E0 : str_eqb path [] = false)
    by (apply str_eqb_neq; intros ->; discriminate).
  assert (E1 : str_eqb path [SEP] = false)
    by (apply str_eqb_neq; intros ->; discriminate).
  now rewrite E0, E1, Hsplit.
Qed.

Lemma resolve_loop_inv (sb : SuperBlock) (name : str) (rest : list str)
    (current c : Z) (f f' : file) :
  resolve_loop decode sb (name :: rest) current f = (Ok c, f') ->
  exists ino f1 d0 ds blk f2 nxt,
    read_inode sb current f = (Ok ino, f1)
    /\ is_dir ino = true
    /\ direct ino = d0 :: ds
    /\ d0 <> 0
    /\ read_block sb d0 f1 = (Ok blk, f2)
    /\ find_child name (parse_dir_block decode blk) = Some nxt
    /\ resolve_loop decode sb rest nxt f2 = (Ok c, f').
Proof.
  cbn [resolve_loop]. unfold bind. intros H.
  destruct (read_inode sb current f) as [[ino|e] f1] eqn:Hino;
    [|discriminate].
  destruct (is_dir ino) eqn:Hdir; [|discriminate]. cbn [negb] in H.
  unfold first_direct in H.
  destruct (direct ino) as [|d0 ds] eqn:Hd; [discriminate|].
  unfold ret at 1 in H.
  destruct (d0 =? 0) eqn:E0; [discriminate|]. apply Z.eqb_neq in E0.
  destruct (read_block sb d0 f1) as [[blk|e] f2] eqn:Hblk; [|discriminate].
  destruct (find_child name (parse_dir_block decode blk)) as [nxt|] eqn:Hfind;
    [|discriminate].
  exists ino, f1, d0, ds, blk, f2, nxt.
  refine (conj _ (conj _ (conj _ (conj _ (conj _ (conj _ _)))))); auto.
Qed.

(** X14. Once a path has a component, a separator more at its end or at
    its start changes nothing: [resolve_path] does the same reads and gives
    the same result, so a trailing ["/"] does not ask for a directory. *)
Theorem resolve_path_extra_separator (sb : SuperBlock) (path : str)
    (f : file) :
  split_path path <> [] ->
  resolve_path decode sb (path ++ [SEP]) f = resolve_path decode sb path f
  /\ resolve_path decode sb (SEP :: path) f = resolve_path decode sb path f.
Proof.
  intros Hne.
  destruct (split_path path) as [|c cs] eqn:Hsplit; [contradiction|].
  assert (Hend : split_path (path ++ [SEP]) = c :: cs).
  { rewrite !split_path_filter in *. rewrite split_on_sep_app, filter_app.
    rewrite Hsplit. cbn. now rewrite app_nil_r. }
  assert (Hstart : split_path (SEP :: path) = c :: cs).
  { rewrite !split_path_filter in *.
    change (SEP :: path) with ([] ++ SEP :: path).
    rewrite split_on_sep_app, filter_app, Hsplit. reflexivity. }
  rewrite (resolve_path_of_components sb _ f c cs Hend).
  rewrite (resolve_path_of_components sb _ f c cs Hstart).
  rewrite (resolve_path_of_components sb _ f c cs Hsplit).
  split; reflexivity.
Qed.

(** X15. Resolving [p/q] is resolving [p] and walking the components of
    [q] from the inode found, on the file as the first walk left it; a
    failure of the first walk is the failure of the whole. *)
Theorem resolve_path_compose (sb : SuperBlock) (p q : str) (f : file) :
  split_path p <> [] ->
  resolve_path decode sb (p ++ SEP :: q) f
  = match resolve_path decode sb p f with
    | (Ok c, f1) => resolve_loop decode sb (split_path q) c f1
    | (Raise e, f1) => (Raise e, f1)
    end.
Proof.
  intros Hne.
  destruct (split_path p) as [|c cs] eqn:Hp; [contradiction|].
  assert (Hpq : split_path (p ++ SEP :: q) = c :: (cs ++ split_path q))
    by (rewrite !split_path_filter in *;
        now rewrite split_on_sep_app, filter_app, Hp).
  rewrite (resolve_path_of_components sb _ f c _ Hpq).
  rewrite (resolve_path_of_components sb _ f c cs Hp).
  change (c :: cs ++ split_path q) with ((c :: cs) ++ split_path q).
  apply resolve_loop_app.
Qed.

(** X16. When the walk stands on an inode and a component is still to be
    looked up, it fails with the not-a-directory error if that inode is a
    file, and with the no-data-block error if it is a directory whose first
    direct block is 0; in both cases the inode read is the last access. *)
Theorem resolve_path_blocked (sb : SuperBlock) (path : str)
    (comps : list str) (name : str) (rest : list str) (f f1 f2 : file)
    (current : Z) (ino : Inode) :
  split_path path = comps ++ name :: rest ->
  resolve_loop decode sb comps (rootInodeId sb) f = (Ok current, f1) ->
  read_inode sb current f1 = (Ok ino, f2) ->
  (is_dir ino = false ->
   resolve_path decode sb path f = (Raise NotADirectoryResolving, f2))
  /\ (is_dir ino = true -> hd 0 (direct ino) = 0 ->
      resolve_path decode sb path f = (Raise EmptyDirectory, f2)).
Proof.
  intros Hsplit Hwalk Hino.
  assert (Hgo : resolve_path decode sb path f
                = resolve_loop decode sb (name :: rest) current f1).
  { destruct (comps ++ name :: rest) as [|c cs] eqn:E;
      [destruct comps; discriminate|].
    rewrite (resolve_path_of_components sb _ f c cs Hsplit), <- E.
    now rewrite resolve_loop_app, Hwalk. }
  rewrite Hgo. cbn [resolve_loop]. rewrite (bind_ok _ _ _ _ _ Hino).
  destruct (read_inode_inv _ _ _ _ _ Hino) as [Hat _].
  destruct (inode_at_shape _ _ _ _ Hat) as [_ [_ [d0 [ds Hd]]]].
  split.
  - intros ->. reflexivity.
  - intros -> Hz. rewrite Hd in Hz. cbn [hd] in Hz. subst d0.
    cbn [negb]. unfold first_direct. rewrite Hd. reflexivity.
Qed.

(** X17. When no record in use of the directory block carries the name
    looked up (an all-unused block included), the walk fails with the
    not-found error right after reading that block. *)
Theorem resolve_path_not_found (sb : SuperBlock) (path : str)
    (comps : list str) (name : str) (rest : list str) (f f1 f2 f3 : file)
    (current : Z) (ino : Inode) (d0 : Z) (ds : list Z) (blk : bytes) :
  split_path path = comps ++ name :: rest ->
  resolve_loop decode sb comps (rootInodeId sb) f = (Ok current, f1) ->
  read_inode sb current f1 = (Ok ino, f2) ->
  is_dir ino = true ->
  direct ino = d0 :: ds ->
  d0 <> 0 ->
  read_block sb d0 f2 = (Ok blk, f3) ->
  (forall rec, In rec (dir_records blk) -> in_use rec = true ->
               entry_name decode (snd rec) <> name) ->
  resolve_path decode sb path f = (Raise PathNotFound, f3).
Proof.
  intros Hsplit Hwalk Hino Hdir Hd Hd0 Hblk Hno.
  destruct (comps ++ name :: rest) as [|c cs] eqn:E;
    [destruct comps; discriminate|].
  rewrite (resolve_path_of_components sb _ f c cs Hsplit), <- E.
  rewrite resolve_loop_app, Hwalk.
  rewrite (resolve_loop_step decode sb name rest current f1 f2 f3 ino d0 ds blk)
    by assumption.
  rewrite parse_dir_block_records. unfold in_use.
  now rewrite (find_child_none (entry_name decode) name (dir_records blk) Hno).
Qed.

(** X18. A successful [resolve_path] has issued exactly two reads for each
    component of the path, one of an inode record (44 bytes) and one of a
    block, and none for a path without component. *)
Theorem resolve_path_reads (sb : SuperBlock) (path : str) (f f' : file)
    (c : Z) :
  resolve_path decode sb path f = (Ok c, f') ->
  exists log,
    reads f' = reads f ++ log
    /\ length log = (2 * length (split_path path))%nat
    /\ Forall (fun r => snd r = INODE_SIZE \/ snd r = blockSize sb) log.
Proof.
  assert (Hloop : forall comps current g g' r,
             resolve_loop decode sb comps current g = (Ok r, g') ->
             exists log,
               reads g' = reads g ++ log
               /\ length log = (2 * length comps)%nat
               /\ Forall (fun r => snd r = INODE_SIZE
                                   \/ snd r = blockSize sb) log).
  { induction comps as [|name rest IH]; intros current g g' r H.
    - cbn in H. inversion H; subst. exists []. rewrite app_nil_r. auto.
    - apply resolve_loop_inv in H.
      destruct H as (ino & g1 & d0 & ds & blk & g2 & nxt
                     & Hino & _ & _ & _ & Hblk & _ & Hrest).
      destruct (read_inode_inv _ _ _ _ _ Hino) as [_ [off [Hoff ->]]].
      apply read_block_inv in Hblk;
        [|eapply inode_offset_ok_blockSize; eauto].
      destruct Hblk as [_ [_ ->]].
      destruct (IH _ _ _ _ Hrest) as [log [Hlog [Hlen Hall]]].
      exists ((off, INODE_SIZE) :: (d0 * blockSize sb, blockSize sb) :: log).
      rewrite Hlog. cbn [after_read reads length].
      rewrite <- !app_assoc. cbn [app].
      split; [reflexivity|]. split; [lia|].
      constructor; [left; reflexivity|].
      constructor; [right; reflexivity|exact Hall]. }
  unfold resolve_path. intros H.
  destruct (str_eqb path [] || str_eqb path [SEP]) eqn:E.
  - unfold ret in H. inversion H; subst.
    assert (Hs : split_path path = []).
    { apply orb_true_iff in E. destruct E as [E|E];
        apply str_eqb_eq in E; subst path; reflexivity. }
    rewrite Hs. exists []. rewrite app_nil_r. auto.
  - destruct (split_path path) as [|c0 cs] eqn:Hs; [discriminate|].
    exact (Hloop _ _ _ _ _ H).
Qed.

End WalkProperties.

Lemma resolve_path_extra_separator_witness :
  resolve_path Fixture.decode_ascii Fixture.sb (lit "/a.txt" ++ [SEP])
    Fixture.f
  = resolve_path Fixture.decode_ascii Fixture.sb (lit "/a.txt") Fixture.f.
Proof.
  apply (resolve_path_extra_separator Fixture.decode_ascii Fixture.sb
           (lit "/a.txt") Fixture.f).
  discriminate.
Defined.

Lemma resolve_path_compose_witness :
  resolve_path Fixture.decode_ascii Fixture.sb
    (lit "sub" ++ SEP :: lit "link") Fixture.f
  = resolve_loop Fixture.decode_ascii Fixture.sb [lit "link"] 4
      (snd (resolve_path Fixture.decode_ascii Fixture.sb (lit "sub")
              Fixture.f)).
Proof.
  rewrite (resolve_path_compose Fixture.decode_ascii Fixture.sb
             (lit "sub") (lit "link") Fixture.f) by discriminate.
  reflexivity.
Defined.

Lemma resolve_path_blocked_witness :
  fst (resolve_path Fixture.decode_ascii Fixture.sb (lit "/a.txt/x")
         Fixture.f)
  = Raise NotADirectoryResolving
  /\ fst (resolve_path Fixture.decode_ascii Fixture.sb (lit "/void/x")
            Fixture.f)
     = Raise EmptyDirectory.
Proof.
  split.
  - assert (Hwalk : resolve_loop Fixture.decode_ascii Fixture.sb
                      [lit "a.txt"] (rootInodeId Fixture.sb) Fixture.f
                    = (Ok 2, snd (resolve_loop Fixture.decode_ascii
                                    Fixture.sb [lit "a.txt"]
                                    (rootInodeId Fixture.sb) Fixture.f)))
      by (vm_compute; reflexivity).
    assert (Hino : read_inode Fixture.sb 2
                     (snd (resolve_loop Fixture.decode_ascii Fixture.sb
                             [lit "a.txt"] (rootInodeId Fixture.sb)
                             Fixture.f))
                   = (Ok (Fixture.file_inode 2 5 [4]),
                      snd (read_inode Fixture.sb 2
                             (snd (resolve_loop Fixture.decode_ascii
                                     Fixture.sb [lit "a.txt"]
                                     (rootInodeId Fixture.sb) Fixture.f)))))
      by (vm_compute; reflexivity).
    destruct (resolve_path_blocked Fixture.decode_ascii Fixture.sb
                (lit "/a.txt/x") [lit "a.txt"] (lit "x") []
                Fixture.f _ _ 2 _ eq_refl Hwalk Hino) as [H _].
    rewrite H; reflexivity.
  - assert (Hwalk : resolve_loop Fixture.decode_ascii Fixture.sb
                      [lit "void"] (rootInodeId Fixture.sb) Fixture.f
                    = (Ok 7, snd (resolve_loop Fixture.decode_ascii
                                    Fixture.sb [lit "void"]
                                    (rootInodeId Fixture.sb) Fixture.f)))
      by (vm_compute; reflexivity).
    assert (Hino : read_inode Fixture.sb 7
                     (snd (resolve_loop Fixture.decode_ascii Fixture.sb
                             [lit "void"] (rootInodeId Fixture.sb)
                             Fixture.f))
                   = (Ok (Fixture.dir_inode 7 []),
                      snd (read_inode Fixture.sb 7
                             (snd (resolve_loop Fixture.decode_ascii
                                     Fixture.sb [lit "void"]
                                     (rootInodeId Fixture.sb) Fixture.f)))))
      by (vm_compute; reflexivity).
    destruct (resolve_path_blocked Fixture.decode_ascii Fixture.sb
                (lit "/void/x") [lit "void"] (lit "x") []
                Fixture.f _ _ 7 _ eq_refl Hwalk Hino) as [_ H].
    rewrite H; reflexivity.
Defined.

Lemma resolve_path_not_found_witness :
  fst (resolve_path Fixture.decode_ascii Fixture.sb (lit "/missing")
         Fixture.f)
  = Raise PathNotFound.
Proof.
  assert (Hino : read_inode Fixture.sb 1 Fixture.f
                 = (Ok (Fixture.dir_inode 1 [3]),
                    snd (read_inode Fixture.sb 1 Fixture.f)))
    by (vm_compute; reflexivity).
  assert (Hblk : read_block Fixture.sb 3
                   (snd (read_inode Fixture.sb 1 Fixture.f))
                 = (Ok Fixture.root_dir_block,
                    snd (read_block Fixture.sb 3
                           (snd (read_inode Fixture.sb 1 Fixture.f)))))
    by (vm_compute; reflexivity).
  rewrite (resolve_path_not_found Fixture.decode_ascii Fixture.sb
             (lit "/missing") [] (lit "missing") []
             Fixture.f Fixture.f _ _ 1 _ 3 (repeat 0 7) _
             eq_refl eq_refl Hino eq_refl eq_refl ltac:(discriminate) Hblk).
  - reflexivity.
  - intros rec Hin Huse.
    vm_compute in Hin.
    repeat (destruct Hin as [Hin|Hin];
            [subst rec; vm_compute; discriminate|]).
    contradiction.
Defined.

Lemma resolve_path_reads_witness :
  exists log,
    reads (snd (resolve_path Fixture.decode_ascii Fixture.sb
                  (lit "/sub/link") Fixture.f))
    = reads Fixture.f ++ log
    /\ length log = (2 * length (split_path (lit "/sub/link")))%nat
    /\ Forall (fun r => snd r = INODE_SIZE \/ snd r = blockSize Fixture.sb)
         log.
Proof.
  apply (resolve_path_reads Fixture.decode_ascii Fixture.sb
           (lit "/sub/link") Fixture.f _ 2).
  vm_compute. reflexivity.
Defined.

(** ** Independence from the state of the handle *)

Lemma read_exact_same (n : Z) (f g : file) :
  image f = image g -> pos f = pos g ->
  fst (read_exact n f) = fst (read_exact n g).
Proof.
  intros Hi Hp. unfold read_exact, bind, f_read. rewrite Hi, Hp.
  destruct (n <? -1); [reflexivity|].
  destruct (n <? 0); destruct (negb _); reflexivity.
Qed.

Lemma read_block_same (sb : SuperBlock) (b : Z) (f g : file) :
  image f = image g ->
  fst (read_block sb b f) = fst (read_block sb b g).
Proof.
  intros Hi. unfold read_block.
  destruct (_ || _); [reflexivity|].
  unfold bind, f_seek.
  destruct (_ || _); [reflexivity|].
  apply read_exact_same; [exact Hi|reflexivity].
Qed.

Lemma read_inode_same (sb : SuperBlock) (i : Z) (f g : file) :
  image f = image g ->
  fst (read_inode sb i f) = fst (read_inode sb i g).
Proof.
  intros Hi. unfold read_inode.
  destruct (inode_offset sb i) as [off|e]; [|reflexivity].
  unfold bind at 1 3, f_seek.
  destruct (_ || _); [reflexivity|].
  unfold bind.
  match goal with
  | |- context [read_exact ?n ?a] =>
      match goal with
      | |- fst _ = fst (match read_exact n ?b with _ => _ end) =>
          pose proof (read_exact_same n a b Hi eq_refl) as H;
          destruct (read_exact n a) as [[ra|ea] fa];
          destruct (read_exact n b) as [[rb|eb] fb];
          simpl in H; inversion H; subst; reflexivity
      end
  end.
Qed.

(** Two runs of an operation on the same image: equal results carry equal
    values, and both leave the image as it was. *)
Ltac same_run op_same op_image a b Hi :=
  let H := fresh "Hsame" in
  let Ia := fresh "Ia" in
  let Ib := fresh "Ib" in
  pose proof (op_same a b Hi) as H;
  pose proof (op_image a) as Ia;
  pose proof (op_image b) as Ib;
  cbv beta in H, Ia, Ib.

Section HandleProperties.

Variable decode : bytes -> str.

Lemma resolve_loop_same (sb : SuperBlock) (comps : list str) :
  forall current f g,
    image f = image g ->
    fst (resolve_loop decode sb comps current f)
    = fst (resolve_loop decode sb comps current g).
Proof.
  induction comps as [|name rest IH]; intros current f g Hi; [reflexivity|].
  cbn [resolve_loop]. unfold bind.
  same_run (read_inode_same sb current) (read_inode_image sb current) f g Hi.
  destruct (read_inode sb current f) as [[ino|e] f1];
    destruct (read_inode sb current g) as [[ino'|e'] g1];
    simpl in Hsame, Ia, Ib; inversion Hsame; subst; [|reflexivity].
  destruct (negb (is_dir ino')); [reflexivity|].
  unfold first_direct. destruct (direct ino') as [|d0 ds]; [reflexivity|].
  unfold ret.
  destruct (d0 =? 0); [reflexivity|].
  assert (Hi1 : image f1 = image g1) by congruence.
  same_run (read_block_same sb d0) (read_block_image sb d0) f1 g1 Hi1.
  destruct (read_block sb d0 f1) as [[blk|e] f2];
    destruct (read_block sb d0 g1) as [[blk'|e'] g2];
    simpl in Hsame0, Ia0, Ib0; inversion Hsame0; subst; [|reflexivity].
  destruct (find_child name (parse_dir_block decode blk')); [|reflexivity].
  apply IH. congruence.
Qed.

Lemma resolve_path_same (sb : SuperBlock) (path : str) (f g : file) :
  image f = image g ->
  fst (resolve_path decode sb path f) = fst (resolve_path decode sb path g).
Proof.
  intros Hi. unfold resolve_path.
  destruct (_ || _); [reflexivity|].
  destruct (split_path path); [reflexivity|].
  now apply resolve_loop_same.
Qed.

Lemma list_dir_loop_same (sb : SuperBlock) (entries : list (Z * str)) :
  forall out f g,
    image f = image g ->
    fst (list_dir_loop sb entries out f)
    = fst (list_dir_loop sb entries out g).
Proof.
  induction entries as [|[cid name] rest IH]; intros out f g Hi;
    [reflexivity|].
  cbn [list_dir_loop]. unfold bind.
  same_run (read_inode_same sb cid) (read_inode_image sb cid) f g Hi.
  destruct (read_inode sb cid f) as [[ino|e] f1];
    destruct (read_inode sb cid g) as [[ino'|e'] g1];
    simpl in Hsame, Ia, Ib; inversion Hsame; subst; [|reflexivity].
  apply IH. congruence.
Qed.

Lemma read_file_loop_same (sb : SuperBlock) (blocks : list Z) :
  forall remaining chunks f g,
    image f = image g ->
    fst (read_file_loop sb blocks remaining chunks f)
    = fst (read_file_loop sb blocks remaining chunks g).
Proof.
  induction blocks as [|b rest IH]; intros remaining chunks f g Hi;
    [reflexivity|].
  cbn [read_file_loop].
  destruct (remaining <=? 0); [reflexivity|].
  destruct (b =? 0); [reflexivity|].
  unfold bind.
  same_run (read_block_same sb b) (read_block_image sb b) f g Hi.
  destruct (read_block sb b f) as [[blk|e] f1];
    destruct (read_block sb b g) as [[blk'|e'] g1];
    simpl in Hsame, Ia, Ib; inversion Hsame; subst; [|reflexivity].
  apply IH. congruence.
Qed.

Lemma bitmap_blocks_loop_same (sb : SuperBlock) (bs : list Z) :
  forall used remaining bit_index f g,
    image f = image g ->
    fst (bitmap_blocks_loop sb bs used remaining bit_index f)
    = fst (bitmap_blocks_loop sb bs used remaining bit_index g).
Proof.
  induction bs as [|b rest IH]; intros used remaining bit_index f g Hi;
    [reflexivity|].
  cbn [bitmap_blocks_loop].
  destruct (remaining <=? 0); [reflexivity|].
  unfold bind.
  same_run (read_block_same sb (freeBitmapStart sb + b))
           (read_block_image sb (freeBitmapStart sb + b)) f g Hi.
  destruct (read_block sb (freeBitmapStart sb + b) f) as [[bmp|e] f1];
    destruct (read_block sb (freeBitmapStart sb + b) g) as [[bmp'|e'] g1];
    simpl in Hsame, Ia, Ib; inversion Hsame; subst; [|reflexivity].
  destruct (bitmap_bits_loop bmp' _ used bit_index) as [[u bi]|e];
    [|reflexivity].
  apply IH. congruence.
Qed.

(** X19. What [resolve_path], [list_dir], [read_file_content] and
    [bitmap_stats] return depends on the bytes of the image only: neither
    the position of the handle nor the reads made before have any
    influence, since every access seeks first. *)
Theorem results_independent_of_handle (sb : SuperBlock) (path : str)
    (f g : file) :
  image f = image g ->
  fst (resolve_path decode sb path f) = fst (resolve_path decode sb path g)
  /\ fst (list_dir decode sb path f) = fst (list_dir decode sb path g)
  /\ fst (read_file_content decode sb path f)
     = fst (read_file_content decode sb path g)
  /\ fst (bitmap_stats sb f) = fst (bitmap_stats sb g).
Proof.
  intros Hi.
  pose proof (resolve_path_same sb path f g Hi) as Hres.
  pose proof (resolve_path_image decode sb path f) as If.
  pose proof (resolve_path_image decode sb path g) as Ig.
  split; [exact Hres|].
  split; [|split].
  - unfold list_dir, bind.
    destruct (resolve_path decode sb path f) as [[i|e] f1];
      destruct (resolve_path decode sb path g) as [[i'|e'] g1];
      simpl in Hres, If, Ig; inversion Hres; subst; [|reflexivity].
    assert (Hi1 : image f1 = image g1) by congruence.
    same_run (read_inode_same sb i') (read_inode_image sb i') f1 g1 Hi1.
    destruct (read_inode sb i' f1) as [[ino|e] f2];
      destruct (read_inode sb i' g1) as [[ino'|e'] g2];
      simpl in Hsame, Ia, Ib; inversion Hsame; subst; [|reflexivity].
    destruct (negb (is_dir ino')); [reflexivity|].
    unfold first_direct. destruct (direct ino') as [|d0 ds]; [reflexivity|].
    unfold ret.
    destruct (d0 =? 0); [reflexivity|].
    assert (Hi2 : image f2 = image g2) by congruence.
    same_run (read_block_same sb d0) (read_block_image sb d0) f2 g2 Hi2.
    destruct (read_block sb d0 f2) as [[blk|e] f3];
      destruct (read_block sb d0 g2) as [[blk'|e'] g3];
      simpl in Hsame0, Ia0, Ib0; inversion Hsame0; subst; [|reflexivity].
    apply list_dir_loop_same. congruence.
  - unfold read_file_content, bind.
    destruct (resolve_path decode sb path f) as [[i|e] f1];
      destruct (resolve_path decode sb path g) as [[i'|e'] g1];
      simpl in Hres, If, Ig; inversion Hres; subst; [|reflexivity].
    assert (Hi1 : image f1 = image g1) by congruence.
    same_run (read_inode_same sb i') (read_inode_image sb i') f1 g1 Hi1.
    destruct (read_inode sb i' f1) as [[ino|e] f2];
      destruct (read_inode sb i' g1) as [[ino'|e'] g2];
      simpl in Hsame, Ia, Ib; inversion Hsame; subst; [|reflexivity].
    destruct (is_dir ino'); [reflexivity|].
    assert (Hi2 : image f2 = image g2) by congruence.
    pose proof (read_file_loop_same sb (direct ino') (size ino') [] f2 g2 Hi2)
      as Hloop.
    destruct (read_file_loop sb (direct ino') (size ino') [] f2)
      as [[[r1 c1]|e] f3];
      destruct (read_file_loop sb (direct ino') (size ino') [] g2)
        as [[[r2 c2]|e'] g3];
      simpl in Hloop; inversion Hloop; subst; [|reflexivity].
    destruct (negb (r2 =? 0)); reflexivity.
  - unfold bitmap_stats, bind.
    pose proof (bitmap_blocks_loop_same sb (range (freeBitmapBlocks sb))
                  0 (dataBlockCount sb) 0 f g Hi) as Hloop.
    destruct (bitmap_blocks_loop sb _ 0 (dataBlockCount sb) 0 f)
      as [[u|e] f1];
      destruct (bitmap_blocks_loop sb _ 0 (dataBlockCount sb) 0 g)
        as [[u'|e'] g1];
      simpl in Hloop; inversion Hloop; subst; reflexivity.
Qed.

End HandleProperties.

Lemma results_independent_of_handle_witness :
  fst (read_file_content Fixture.decode_ascii Fixture.sb (lit "/a.txt")
         (snd (bitmap_stats Fixture.sb Fixture.f)))
  = fst (read_file_content Fixture.decode_ascii Fixture.sb (lit "/a.txt")
           Fixture.f).
Proof.
  apply (results_independent_of_handle Fixture.decode_ascii Fixture.sb
           (lit "/a.txt") (snd (bitmap_stats Fixture.sb Fixture.f))
           Fixture.f).
  reflexivity.
Defined.

(** ** Edge cases of [read_file_content] *)

Lemma leading_nonzero_length (blocks : list Z) :
  (length (leading_nonzero blocks) <= length blocks)%nat.
Proof.
  induction blocks as [|b rest IH]; [reflexivity|].
  cbn [leading_nonzero]. destruct (b =? 0); cbn [length]; lia.
Qed.

Lemma inode_at_direct_length (sb : SuperBlock) (img : bytes) (i : Z)
    (ino : Inode) :
  inode_at sb img i = Some ino -> length (direct ino) = 8%nat.
Proof.
  unfold inode_at. intros H.
  destruct (inode_offset sb i); [|discriminate].
  destruct (_ && _); [|discriminate].
  inversion H; subst ino. apply unpack_uint32s_length.
Qed.

Section ContentProperties.

Variable decode : bytes -> str.

(** X20. A path that resolves to a directory makes [read_file_content]
    fail with the is-a-directory error, and one that resolves to a file of
    size 0 makes it return the empty byte string; either way the inode read
    is the last access: no data block is read, whatever the direct block
    identifiers of the inode hold. *)
Theorem read_file_content_no_block_read (sb : SuperBlock) (path : str)
    (f f1 f2 : file) (inode_id : Z) (ino : Inode) :
  resolve_path decode sb path f = (Ok inode_id, f1) ->
  read_inode sb inode_id f1 = (Ok ino, f2) ->
  (is_dir ino = true ->
   read_file_content decode sb path f = (Raise IsADirectory, f2))
  /\ (is_dir ino = false -> size ino = 0 ->
      read_file_content decode sb path f = (Ok [], f2)).
Proof.
  intros Hres Hino. unfold read_file_content.
  rewrite (bind_ok _ _ _ _ _ Hres), (bind_ok _ _ _ _ _ Hino).
  split.
  - intros ->. reflexivity.
  - intros -> ->. destruct (direct ino); reflexivity.
Qed.

(** X21. No more than the eight direct blocks can be returned: when
    [read_file_content] succeeds, the size of the inode is at most
    [8 * blockSize]. *)
Theorem read_file_content_size_cap (sb : SuperBlock) (path : str)
    (f f1 f2 : file) (inode_id : Z) (ino : Inode) (data : bytes) :
  resolve_path decode sb path f = (Ok inode_id, f1) ->
  read_inode sb inode_id f1 = (Ok ino, f2) ->
  fst (read_file_content decode sb path f) = Ok data ->
  size ino <= 8 * blockSize sb
  /\ Z.of_nat (length data) <= 8 * blockSize sb.
Proof.
  intros Hres Hino Hok.
  destruct (read_inode_inv _ _ _ _ _ Hino) as [Hat _].
  destruct (inode_at_shape _ _ _ _ Hat) as [Hbs [Hsize _]].
  pose proof (inode_at_direct_length _ _ _ _ Hat) as H8.
  pose proof (leading_nonzero_length (direct ino)) as Hlead.
  unfold read_file_content in Hok.
  rewrite (bind_ok _ _ _ _ _ Hres), (bind_ok _ _ _ _ _ Hino) in Hok.
  destruct (is_dir ino); [discriminate|].
  destruct (Forall_dec (block_readable sb (image f2))
              (block_readable_dec sb (image f2))
              (visited_blocks (blockSize sb) (direct ino) (size ino)))
    as [Hall|Hnot].
  - destruct (read_file_loop_ok sb (direct ino) (size ino) [] f2
                Hbs Hsize Hall) as [f' Hloop].
    rewrite (bind_ok _ _ _ _ _ Hloop) in Hok.
    pose proof (file_chunks_length sb (image f2) (direct ino) (size ino)
                  Hbs Hsize Hall) as Hlen.
    destruct (Z.max 0 _ =? 0) eqn:E; [|discriminate].
    apply Z.eqb_eq in E. cbn [negb app] in Hok. unfold ret in Hok.
    inversion Hok; subst data. nia.
  - destruct (read_file_loop_fail sb (direct ino) (size ino) [] f2
                Hbs Hnot) as [e [f' [Hloop _]]].
    rewrite (bind_raise _ _ _ _ _ Hloop) in Hok. discriminate.
Qed.

End ContentProperties.

Lemma read_file_content_no_block_read_witness :
  fst (read_file_content Fixture.decode_ascii Fixture.sb (lit "/sub")
         Fixture.f)
  = Raise IsADirectory.
Proof.
  assert (Hres : resolve_path Fixture.decode_ascii Fixture.sb (lit "/sub")
                   Fixture.f
                 = (Ok 4, snd (resolve_path Fixture.decode_ascii Fixture.sb
                                 (lit "/sub") Fixture.f)))
    by (vm_compute; reflexivity).
  assert (Hino : read_inode Fixture.sb 4
                   (snd (resolve_path Fixture.decode_ascii Fixture.sb
                           (lit "/sub") Fixture.f))
                 = (Ok (Fixture.dir_inode 4 [6]),
                    snd (read_inode Fixture.sb 4
                           (snd (resolve_path Fixture.decode_ascii
                                   Fixture.sb (lit "/sub") Fixture.f)))))
    by (vm_compute; reflexivity).
  destruct (read_file_content_no_block_read Fixture.decode_ascii Fixture.sb
              (lit "/sub") Fixture.f _ _ 4 _ Hres Hino) as [H _].
  rewrite H; reflexivity.
Defined.

Lemma read_file_content_size_cap_witness :
  size (Fixture.file_inode 6 515 [7; 8]) <= 8 * blockSize Fixture.sb.
Proof.
  assert (Hres : resolve_path Fixture.decode_ascii Fixture.sb (lit "/two")
                   Fixture.f
                 = (Ok 6, snd (resolve_path Fixture.decode_ascii Fixture.sb
                                 (lit "/two") Fixture.f)))
    by (vm_compute; reflexivity).
  assert (Hino : read_inode Fixture.sb 6
                   (snd (resolve_path Fixture.decode_ascii Fixture.sb
                           (lit "/two") Fixture.f))
                 = (Ok (Fixture.file_inode 6 515 [7; 8]),
                    snd (read_inode Fixture.sb 6
                           (snd (resolve_path Fixture.decode_ascii
                                   Fixture.sb (lit "/two") Fixture.f)))))
    by (vm_compute; reflexivity).
  refine (proj1 (read_file_content_size_cap Fixture.decode_ascii Fixture.sb
                   (lit "/two") Fixture.f _ _ 6 _
                   (match fst (read_file_content Fixture.decode_ascii
                                 Fixture.sb (lit "/two") Fixture.f) with
                    | Ok d => d
                    | Raise _ => []
                    end)
                   Hres Hino _)).
  vm_compute. reflexivity.
Defined.

(** ** Edge cases of [bitmap_stats] *)

Lemma used_bits_bounds (bmp : bytes) (n : nat) :
  forall start, 0 <= used_bits bmp start n <= Z.of_nat n.
Proof.
  induction n as [|n IH]; intros start; cbn [used_bits]; [lia|].
  specialize (IH (start + 1)).
  destruct (logical_bit bmp start); cbn [Z.b2z]; lia.
Qed.

(** X22. When the data region fits the bits of the first bitmap block
    and that block can be read, [bitmap_stats] returns [dataBlockCount],
    the number of set bits among the first [dataBlockCount] logical bits of
    the block (bit [i mod 8] of byte [i div 8]) and the difference; bits
    further on do not count, and both counts lie between 0 and
    [dataBlockCount]. *)
Theorem bitmap_stats_single_block (sb : SuperBlock) (f : file) :
  0 < blockSize sb ->
  0 <= dataBlockCount sb <= blockSize sb * 8 ->
  1 <= freeBitmapBlocks sb ->
  block_readable sb (image f) (freeBitmapStart sb) ->
  exists used,
    fst (bitmap_stats sb f)
    = Ok (dataBlockCount sb, used, dataBlockCount sb - used)
    /\ used = used_bits (block_bytes sb (image f) (freeBitmapStart sb)) 0
                (Z.to_nat (dataBlockCount sb))
    /\ 0 <= used <= dataBlockCount sb
    /\ 0 <= dataBlockCount sb - used <= dataBlockCount sb.
Proof.
  intros Hbs Hdbc Hfbb Hblk.
  pose proof (bitmap_stats_one_block sb f Hbs Hdbc Hfbb Hblk) as H.
  cbv zeta in H.
  pose proof (used_bits_bounds
                (block_bytes sb (image f) (freeBitmapStart sb))
                (Z.to_nat (dataBlockCount sb)) 0) as Hb.
  eexists. split; [exact H|]. split; [reflexivity|]. lia.
Qed.

Lemma bitmap_stats_single_block_witness :
  exists used,
    fst (bitmap_stats Fixture.sb Fixture.f) = Ok (9, used, 9 - used)
    /\ 0 <= used <= 9.
Proof.
  destruct (bitmap_stats_single_block Fixture.sb Fixture.f)
    as [used [H [_ [Hb _]]]]; try by_evaluation.
  exists used. split; [exact H|exact Hb].
Defined.

(** X23. With no bitmap block to scan ([freeBitmapBlocks <= 0]) or no
    data block to count ([dataBlockCount <= 0]), [bitmap_stats] reads
    nothing and reports no block in use. *)
Theorem bitmap_stats_nothing_to_scan (sb : SuperBlock) (f : file) :
  freeBitmapBlocks sb <= 0 \/ dataBlockCount sb <= 0 ->
  bitmap_stats sb f = (Ok (dataBlockCount sb, 0, dataBlockCount sb - 0), f).
Proof.
  intros H. unfold bitmap_stats.
  assert (Hloop : bitmap_blocks_loop sb (range (freeBitmapBlocks sb))
                    0 (dataBlockCount sb) 0 f = (Ok 0, f)).
  { destruct H as [H|H].
    - unfold range. replace (Z.to_nat (freeBitmapBlocks sb)) with 0%nat by lia.
      reflexivity.
    - now apply bitmap_blocks_loop_done. }
  now rewrite (bind_ok _ _ _ _ _ Hloop).
Qed.

Lemma bitmap_stats_nothing_to_scan_witness :
  bitmap_stats (mkSuperBlock FS_MAGIC 512 12 1 1 11 2 0 3 9 1) Fixture.f
  = (Ok (9, 0, 9 - 0), Fixture.f).
Proof.
  apply (bitmap_stats_nothing_to_scan
           (mkSuperBlock FS_MAGIC 512 12 1 1 11 2 0 3 9 1) Fixture.f).
  left. by_evaluation.
Defined.
